(** * White Heart Driver: trip fare, trip state, route progress, voice gate
      and polyline decoding

    A shallow embedding of the core logic of the driver application:

    - [Polyline]: [NavigationService.decodePolyline]
      (src/services/NavigationService.ts);
    - [Tracker]: [updateNavigationProgress]
      (src/docs/MAP_NAVIGATION_SPECIFICATION.md, phase 7.1);
    - [Voice]: the announcement effect of the [VoiceGuidance] component
      (src/components/navigation/VoiceGuidance.tsx);
    - [Trip]: the state and the handlers of [NavigationScreen]
      (same file, second component); [ScreenParts]: its stars and what
      the properties of its clock and its undo history need;
    - [Traffic]: [calculateTrafficSeverity] and the traffic information of
      [getTrafficAwareETA]; [Html]: [cleanHtmlInstructions]
      (src/services/NavigationService.ts).

    Numbers.  A JavaScript [number] that holds a fare, a distance or a
    coordinate is modelled by the rational it denotes ([Q]); equality of
    numbers is [Qeq].  Time stamps ([Date.now()]) and the 32-bit integers of
    the bit operators are integers ([Z]), the latter with the wrap-around of
    [ToInt32] written out.  [NaN] only arises in [decodePolyline], from
    [charCodeAt] past the end of the string, and is modelled there
    explicitly. *)

From Stdlib Require Import ZArith QArith Qround Qminmax Qabs.
From Stdlib Require Import List Bool String Ascii Lia Lqa.
From Stdlib Require Import PrimFloat.
Import ListNotations.

(* ===================================================================== *)
(** * Definitions *)
(* ===================================================================== *)

(** [LocationCoords] of src/services/LocationService: degrees, WGS-84. *)
Record LocationCoords : Type := mkCoords {
  latitude : Q;
  longitude : Q
}.

(* --------------------------------------------------------------------- *)
(** ** Polyline codec *)
(* --------------------------------------------------------------------- *)

Module Polyline.

Local Open Scope Z_scope.

(** A JavaScript string is a sequence of UTF-16 code units; [codeUnits]
    gives the units of a string literal (all below 256 here). *)
Definition jsString : Type := list Z.

Fixpoint codeUnits (s : string) : jsString :=
  match s with
  | EmptyString => []
  | String a s' => Z.of_N (N_of_ascii a) :: codeUnits s'
  end.

(** [ToInt32]: the operands and the result of [|], [&], [<<], [>>] and [~]
    are signed 32-bit integers. *)
Definition toInt32 (z : Z) : Z := (z + 2 ^ 31) mod 2 ^ 32 - 2 ^ 31.

Definition and32 (x y : Z) : Z := toInt32 (Z.land (toInt32 x) (toInt32 y)).
Definition or32 (x y : Z) : Z := toInt32 (Z.lor (toInt32 x) (toInt32 y)).
(** [x << n]: only the low five bits of the count are used. *)
Definition shl32 (x n : Z) : Z :=
  toInt32 (Z.shiftl (toInt32 x) (Z.land n 31)).
(** [x >> n]: sign-propagating. *)
Definition sar32 (x n : Z) : Z := Z.shiftr (toInt32 x) (Z.land n 31).
Definition not32 (x : Z) : Z := Z.lnot (toInt32 x).

(** The [do { ... } while (byte >= 0x20)] loop, started with the given
    [shift] and [result], on the code units from [index] on.  It returns
    [result] and the units that follow the ones it read.

    [[
    do {
      byte = encoded.charCodeAt(index++) - 63;
      result |= (byte & 0x1f) << shift;
      shift += 5;
    } while (byte >= 0x20);
    ]]

    Past the end of the string [charCodeAt] is [NaN], so [byte] is [NaN]:
    [NaN & 0x1f] is [0], [result] is or-ed with [0], and [NaN >= 0x20] is
    false, which ends the loop.  [index] is then beyond the length, which
    the empty remainder stands for. *)
Fixpoint readGroups (rest : jsString) (shift result : Z) : Z * jsString :=
  match rest with
  | [] => (or32 result (shl32 0 shift), [])
  | c :: rest' =>
      let byte := c - 63 in
      let result' := or32 result (shl32 (and32 byte 31) shift) in
      if 32 <=? byte
      then readGroups rest' (shift + 5) result'
      else (result', rest')
  end.

(** [((result & 1) !== 0 ? ~(result >> 1) : (result >> 1))] *)
Definition delta (result : Z) : Z :=
  if and32 result 1 =? 0 then sar32 result 1 else not32 (sar32 result 1).

(** [{ latitude: lat / 1e5, longitude: lng / 1e5 }] *)
Definition coordsE5 (lat lng : Z) : LocationCoords :=
  mkCoords (lat # 100000) (lng # 100000).

(** The [while (index < encoded.length)] loop.  Every round reads at least
    one code unit, so [length rest] rounds always suffice; [fuel] bounds
    the rounds.  [lat] and [lng] are sums of 32-bit integers and are kept
    exact. *)
Fixpoint decodeLoop (fuel : nat) (rest : jsString) (lat lng : Z)
  : list LocationCoords :=
  match fuel, rest with
  | O, _ => []
  | _, [] => []
  | S fuel', _ :: _ =>
      let '(result, rest1) := readGroups rest 0 0 in
      let lat' := lat + delta result in
      let '(result2, rest2) := readGroups rest1 0 0 in
      let lng' := lng + delta result2 in
      coordsE5 lat' lng' :: decodeLoop fuel' rest2 lat' lng'
  end.

Definition decodePolyline (encoded : jsString) : list LocationCoords :=
  decodeLoop (List.length encoded) encoded 0 0.

(** The string ends inside a value: its last code unit carries the
    continuation bit ([byte >= 0x20]). *)
Fixpoint endsMidCodepoint (encoded : jsString) : bool :=
  match encoded with
  | [] => false
  | c :: rest =>
      match rest with
      | [] => 32 <=? c - 63
      | _ :: _ => endsMidCodepoint rest
      end
  end.

(** *** The encoder the strings come from

    Modelled from the spec: the conforming encoder of its section 4.2.  The
    repository holds no encoder (the strings come from the directions
    provider); [e5], [zigzag], [encodeGroups], [encodeValue], [encodeFrom]
    and [encodePolyline] follow the published encoding the specification
    names: signed deltas at scale 1e5, zig-zag sign, 5-bit groups with
    continuation bit 0x20, offset 63. *)

(** [round (c * 1e5)]: to the nearest integer, halves upwards. *)
Definition e5 (c : Q) : Z := Qfloor (c * 100000 + (1 # 2)).

Definition zigzag (d : Z) : Z :=
  if d <? 0 then Z.lnot (Z.shiftl d 1) else Z.shiftl d 1.

Fixpoint encodeGroups (fuel : nat) (v : Z) : jsString :=
  match fuel with
  | O => [v + 63]
  | S fuel' =>
      if 32 <=? v
      then (Z.lor 32 (Z.land v 31) + 63) :: encodeGroups fuel' (Z.shiftr v 5)
      else [v + 63]
  end.

Definition encodeValue (d : Z) : jsString :=
  encodeGroups (Z.to_nat (Z.log2 (zigzag d))) (zigzag d).

Fixpoint encodeFrom (lat lng : Z) (cs : list LocationCoords) : jsString :=
  match cs with
  | [] => []
  | c :: cs' =>
      let lat' := e5 (latitude c) in
      let lng' := e5 (longitude c) in
      encodeValue (lat' - lat) ++ encodeValue (lng' - lng)
        ++ encodeFrom lat' lng' cs'
  end.

Definition encodePolyline (cs : list LocationCoords) : jsString :=
  encodeFrom 0 0 cs.

(** What the encoder keeps of a coordinate: the nearest multiple of
    1e-5. *)
Definition quantize (c : LocationCoords) : LocationCoords :=
  coordsE5 (e5 (latitude c)) (e5 (longitude c)).

(** A coordinate of the WGS-84 range. *)
Definition wgs84 (c : LocationCoords) : Prop :=
  (-90 <= latitude c <= 90)%Q /\ (-180 <= longitude c <= 180)%Q.

(** Two coordinates agree to within 1e-5 degrees. *)
Definition within1e5 (c d : LocationCoords) : Prop :=
  (Qabs (latitude d - latitude c) <= 1 # 100000)%Q
  /\ (Qabs (longitude d - longitude c) <= 1 # 100000)%Q.

End Polyline.

(* --------------------------------------------------------------------- *)
(** ** Route-progress tracker *)
(* --------------------------------------------------------------------- *)

(** [NavigationInstruction] and [RouteResult] of
    src/services/NavigationService.ts. *)
Record NavigationInstruction : Type := mkInstruction {
  text : string;
  distanceText : string;   (* [distance] *)
  durationText : string;   (* [duration] *)
  maneuver : string;
  coordinates : LocationCoords;
  streetName : option string;
  exitNumber : option string
}.

Record RouteResult : Type := mkRoute {
  routeCoordinates : list LocationCoords;   (* [coordinates] *)
  routeDistance : string;
  routeDuration : string;
  instructions : list NavigationInstruction;
  boundsNortheast : LocationCoords;
  boundsSouthwest : LocationCoords;
  polylineEncoded : string
}.

(** [x < y] on numbers. *)
Definition Qltb (x y : Q) : bool := negb (Qle_bool y x).

Module Tracker.

(** [Number.MAX_VALUE], the largest finite double:
    (2^53 - 1) * 2^971. *)
Definition MAX_VALUE : Q := inject_Z ((2 ^ 53 - 1) * 2 ^ 971).

Section Progress.

(** [calculateDistance] is the haversine formula (sines, cosines, a
    square root and an arc tangent of doubles); the tracker only
    compares its results.  It is taken as a parameter: the finite,
    non-[NaN] number it returns for two coordinates. *)
Variable calculateDistance : LocationCoords -> LocationCoords -> Q.

(** [calculateDistance(currentCoords, instruction.coordinates)] *)
Definition distanceTo (currentCoords : LocationCoords)
  (instruction : NavigationInstruction) : Q :=
  calculateDistance currentCoords (coordinates instruction).

(** The body of the [forEach]: the pair is ([minDistance],
    [closestInstruction]).
    [[
    const distance = calculateDistance(currentCoords, instruction.coordinates);
    if (distance < minDistance) {
      minDistance = distance;
      closestInstruction = instruction;
    }
    ]] *)
Definition visit (currentCoords : LocationCoords)
  (acc : Q * option NavigationInstruction)
  (instruction : NavigationInstruction)
  : Q * option NavigationInstruction :=
  let distance := distanceTo currentCoords instruction in
  if Qltb distance (fst acc) then (distance, Some instruction) else acc.

(** [closestInstruction] after the loop; [route.instructions[0]] is
    [undefined] ([None]) on an empty list. *)
Definition closestInstruction (currentCoords : LocationCoords)
  (l : list NavigationInstruction) : option NavigationInstruction :=
  snd (fold_left (visit currentCoords) l (MAX_VALUE, nth_error l 0)).

(** [updateNavigationProgress]: the new value of the [currentInstruction]
    state, given its old value.  [if (!route || !route.instructions)
    return;] leaves it as it is. *)
Definition updateNavigationProgress (route : option RouteResult)
  (location : LocationCoords)
  (currentInstruction : option NavigationInstruction)
  : option NavigationInstruction :=
  match route with
  | None => currentInstruction
  | Some r =>
      let currentCoords :=
        mkCoords (latitude location) (longitude location) in
      closestInstruction currentCoords (instructions r)
  end.

End Progress.

End Tracker.

(* --------------------------------------------------------------------- *)
(** ** Voice-announcement gate *)
(* --------------------------------------------------------------------- *)

Module Voice.

(** The props of [VoiceGuidance] the effect reads. *)
Record Props : Type := mkProps {
  currentInstruction : option NavigationInstruction;
  distanceToNext : Q;
  isNavigating : bool
}.

(** The state of the component. *)
Record State : Type := mkState {
  isMuted : bool;
  lastSpokenInstruction : option string;
  isInitialized : bool
}.

(** What is handed to [VoiceService.speak]: the instruction text, after
    "In <n> meters, " when [inMeters] is [Some n]. *)
Record Utterance : Type := mkUtterance {
  inMeters : option Z;
  spoken : string
}.

(** [Math.round]: to the nearest integer, halves upwards. *)
Definition round (x : Q) : Z := Qfloor (x + (1 # 2)).

(** [currentInstruction.text !== lastSpokenInstruction] *)
Definition differs (t : string) (last : option string) : bool :=
  match last with
  | None => true
  | Some l => negb (String.eqb t l)
  end.

(** [[
    const shouldSpeak =
      distanceToNext <= 100 ||
      (distanceToNext <= 500 && currentInstruction.text !== lastSpokenInstruction);
    ]] *)
Definition shouldSpeak (distanceToNext : Q) (instruction : NavigationInstruction)
  (lastSpoken : option string) : bool :=
  Qle_bool distanceToNext 100
  || (Qle_bool distanceToNext 500 && differs (text instruction) lastSpoken).

(** [speakInstruction]: [VoiceService.speak] catches its own failures and
    always resolves, so [setLastSpokenInstruction] always follows. *)
Definition speakInstruction (instruction : NavigationInstruction)
  (distance : Q) (st : State) : Utterance * State :=
  let instructionText :=
    if Qle_bool distance 50 then mkUtterance None (text instruction)
    else if Qle_bool distance 100
         then mkUtterance (Some (round distance)) (text instruction)
         else mkUtterance (Some (round (distance / 50) * 50)%Z)
                (text instruction) in
  (instructionText,
   mkState (isMuted st) (Some (text instruction)) (isInitialized st)).

(** The effect on [currentInstruction, distanceToNext, isNavigating,
    isMuted, isInitialized]: what is spoken, if anything, and the state
    afterwards. *)
Definition instructionEffect (props : Props) (st : State)
  : option Utterance * State :=
  if negb (isInitialized st) || negb (isNavigating props) || isMuted st
  then (None, st)
  else match currentInstruction props with
       | None => (None, st)
       | Some instruction =>
           if shouldSpeak (distanceToNext props) instruction
                (lastSpokenInstruction st)
           then let '(u, st') :=
                  speakInstruction instruction (distanceToNext props) st in
                (Some u, st')
           else (None, st)
       end.

(** [toggleMute], without the effect its change of [isMuted] then
    triggers: muting stops the speech, unmuting speaks the current
    instruction at once. *)
Definition toggleMute (props : Props) (st : State)
  : option Utterance * State :=
  let newMutedState := negb (isMuted st) in
  let st1 :=
    mkState newMutedState (lastSpokenInstruction st) (isInitialized st) in
  if newMutedState then (None, st1)
  else match currentInstruction props with
       | Some instruction =>
           let '(u, st') :=
             speakInstruction instruction (distanceToNext props) st1 in
           (Some u, st')
       | None => (None, st1)
       end.

(** A sequence of renders with changed props: each runs the effect.  The
    result lists what each spoke. *)
Fixpoint renders (updates : list Props) (st : State)
  : list (option Utterance) * State :=
  match updates with
  | [] => ([], st)
  | props :: updates' =>
      let '(u, st1) := instructionEffect props st in
      let '(us, st2) := renders updates' st1 in
      (u :: us, st2)
  end.

End Voice.

(* --------------------------------------------------------------------- *)
(** ** Trip state and fare: the navigation screen *)
(* --------------------------------------------------------------------- *)

Module Trip.

Inductive Status : Type := idle | active | resting | completed.

Definition Status_eqb (a b : Status) : bool :=
  match a, b with
  | idle, idle | active, active | resting, resting
  | completed, completed => true
  | _, _ => false
  end.

(** [interface TripState]; [null] is [None]. *)
Record TripState : Type := mkTrip {
  status : Status;
  startTime : option Z;
  restStartTime : option Z;
  totalRestTime : Z
}.

Definition BASE_FARE : Q := 2000.           (* Base fare in MMK *)
Definition FARE_RATE : Q := 600.            (* MMK per km *)
Definition INITIAL_DISTANCE : Q := 1 # 10.  (* 0.1: starting distance in km *)

(** The [value]s of [PRICE_OPTIONS]. *)
Definition PRICE_OPTIONS : list Q := [500; 1000; 2000; 5000].

(** A live interval of [startTripSimulation]: what its callback closed
    over ([tripState.status] and [demandValue] of the render that started
    it) and its local [currentDistance]. *)
Record Interval : Type := mkInterval {
  seenStatus : Status;
  seenDemand : Q;
  currentDistance : Q
}.

(** The state of [NavigationScreen] the fare and the trip depend on
    ([speed], [eta], [activeTab] and the animated values are left out).
    [tripTimer] is the live interval [tripTimer.current] refers to. *)
Record Screen : Type := mkScreen {
  tripState : TripState;
  distance : Q;
  fare : Q;
  showDropoffDialog : bool;
  showCancelButton : bool;
  showDemandModal : bool;
  demandValue : Q;
  totalFare : Q;
  cumulativeTotal : Q;
  recentAdditions : list Q;
  tripTimer : option Interval
}.

Definition setTripState (v : TripState) (s : Screen) : Screen :=
  mkScreen v (distance s) (fare s) (showDropoffDialog s)
    (showCancelButton s) (showDemandModal s) (demandValue s) (totalFare s)
    (cumulativeTotal s) (recentAdditions s) (tripTimer s).
Definition setDistance (v : Q) (s : Screen) : Screen :=
  mkScreen (tripState s) v (fare s) (showDropoffDialog s)
    (showCancelButton s) (showDemandModal s) (demandValue s) (totalFare s)
    (cumulativeTotal s) (recentAdditions s) (tripTimer s).
Definition setFare (v : Q) (s : Screen) : Screen :=
  mkScreen (tripState s) (distance s) v (showDropoffDialog s)
    (showCancelButton s) (showDemandModal s) (demandValue s) (totalFare s)
    (cumulativeTotal s) (recentAdditions s) (tripTimer s).
Definition setShowDropoffDialog (v : bool) (s : Screen) : Screen :=
  mkScreen (tripState s) (distance s) (fare s) v
    (showCancelButton s) (showDemandModal s) (demandValue s) (totalFare s)
    (cumulativeTotal s) (recentAdditions s) (tripTimer s).
Definition setShowCancelButton (v : bool) (s : Screen) : Screen :=
  mkScreen (tripState s) (distance s) (fare s) (showDropoffDialog s)
    v (showDemandModal s) (demandValue s) (totalFare s)
    (cumulativeTotal s) (recentAdditions s) (tripTimer s).
Definition setShowDemandModal (v : bool) (s : Screen) : Screen :=
  mkScreen (tripState s) (distance s) (fare s) (showDropoffDialog s)
    (showCancelButton s) v (demandValue s) (totalFare s)
    (cumulativeTotal s) (recentAdditions s) (tripTimer s).
Definition setDemandValue (v : Q) (s : Screen) : Screen :=
  mkScreen (tripState s) (distance s) (fare s) (showDropoffDialog s)
    (showCancelButton s) (showDemandModal s) v (totalFare s)
    (cumulativeTotal s) (recentAdditions s) (tripTimer s).
Definition setTotalFare (v : Q) (s : Screen) : Screen :=
  mkScreen (tripState s) (distance s) (fare s) (showDropoffDialog s)
    (showCancelButton s) (showDemandModal s) (demandValue s) v
    (cumulativeTotal s) (recentAdditions s) (tripTimer s).
Definition setCumulativeTotal (v : Q) (s : Screen) : Screen :=
  mkScreen (tripState s) (distance s) (fare s) (showDropoffDialog s)
    (showCancelButton s) (showDemandModal s) (demandValue s) (totalFare s)
    v (recentAdditions s) (tripTimer s).
Definition setRecentAdditions (v : list Q) (s : Screen) : Screen :=
  mkScreen (tripState s) (distance s) (fare s) (showDropoffDialog s)
    (showCancelButton s) (showDemandModal s) (demandValue s) (totalFare s)
    (cumulativeTotal s) v (tripTimer s).
Definition setTripTimer (v : option Interval) (s : Screen) : Screen :=
  mkScreen (tripState s) (distance s) (fare s) (showDropoffDialog s)
    (showCancelButton s) (showDemandModal s) (demandValue s) (totalFare s)
    (cumulativeTotal s) (recentAdditions s) v.

(** The [useState] initial values. *)
Definition initial : Screen :=
  mkScreen (mkTrip idle None None 0)
    INITIAL_DISTANCE (BASE_FARE + INITIAL_DISTANCE * FARE_RATE)
    false false false 0 BASE_FARE 0 [] None.

(** [[
    useEffect(() => {
      const distanceFare = distance * FARE_RATE;
      const calculatedTotal = BASE_FARE + distanceFare + demandValue + cumulativeTotal;
      setTotalFare(calculatedTotal);
      setFare(calculatedTotal);
    }, [distance, demandValue, cumulativeTotal]);
    ]] *)
Definition calculatedTotal (s : Screen) : Q :=
  let distanceFare := distance s * FARE_RATE in
  BASE_FARE + distanceFare + demandValue s + cumulativeTotal s.

Definition fareEffect (s : Screen) : Screen :=
  setFare (calculatedTotal s) (setTotalFare (calculatedTotal s) s).

(** The effect runs after a render in which one of its dependencies is
    another number than in the render before. *)
Definition depsChanged (before after : Screen) : bool :=
  negb (Qeq_bool (distance before) (distance after)
        && Qeq_bool (demandValue before) (demandValue after)
        && Qeq_bool (cumulativeTotal before) (cumulativeTotal after)).

Definition commit (before after : Screen) : Screen :=
  if depsChanged before after then fareEffect after else after.

(** The screen after its first render and the effects of the mount: the
    fare effect, and [setShowCancelButton(!!hasCompleteOrderData)]. *)
Definition mount (hasCompleteOrderData : bool) : Screen :=
  setShowCancelButton hasCompleteOrderData (fareEffect initial).

(** *** Handlers *)

Definition handleDemandSelect (selectedDemand : Q) (s : Screen) : Screen :=
  setShowDemandModal false (setDemandValue selectedDemand s).

(** [prev.slice(-4)]: the last four elements. *)
Definition sliceLast (n : nat) (l : list Q) : list Q :=
  skipn (List.length l - n) l.

Definition handlePriceAdd (value : Q) (s : Screen) : Screen :=
  setRecentAdditions (sliceLast 4 (recentAdditions s) ++ [value])
    (setCumulativeTotal (cumulativeTotal s + value) s).

(** The "Clear" button of the alert of [handleClearCumulative]. *)
Definition clearCumulative (s : Screen) : Screen :=
  setRecentAdditions [] (setCumulativeTotal 0 s).

(** [[
    if (recentAdditions.length > 0) {
      const lastAddition = recentAdditions[recentAdditions.length - 1];
      setCumulativeTotal(prev => Math.max(0, prev - lastAddition));
      setRecentAdditions(prev => prev.slice(0, -1));
    }
    ]] *)
Definition handleUndoLast (s : Screen) : Screen :=
  match recentAdditions s with
  | [] => s
  | _ :: _ =>
      let lastAddition := last (recentAdditions s) 0 in
      setRecentAdditions (removelast (recentAdditions s))
        (setCumulativeTotal (Qmax 0 (cumulativeTotal s - lastAddition)) s)
  end.

(** [startTrip], with [startTripSimulation]: the new interval's callback
    closes over the [tripState] and the [demandValue] of the render the
    press came from, not over the state being set. *)
Definition startTrip (now : Z) (s : Screen) : Screen :=
  setTripTimer
    (Some (mkInterval (status (tripState s)) (demandValue s) INITIAL_DISTANCE))
    (setTripState (mkTrip active (Some now) None 0) s).

(** One firing of the interval, with the outcome of [Math.random() * 0.1 +
    0.05].
    [[
    if (tripState.status === 'active') {
      currentDistance += increment;
      const newFare = BASE_FARE + (currentDistance * FARE_RATE) + demandValue;
      setDistance(currentDistance);
      setFare(newFare);
      ...
    }
    ]] *)
Definition tick (increment : Q) (s : Screen) : Screen :=
  match tripTimer s with
  | None => s
  | Some iv =>
      if Status_eqb (seenStatus iv) active
      then let currentDistance' := currentDistance iv + increment in
           let newFare :=
             BASE_FARE + currentDistance' * FARE_RATE + seenDemand iv in
           setTripTimer
             (Some (mkInterval (seenStatus iv) (seenDemand iv) currentDistance'))
             (setFare newFare (setDistance currentDistance' s))
      else s
  end.

(** [tripState.restStartTime || 0] *)
Definition orZero (t : option Z) : Z :=
  match t with
  | Some v => v
  | None => 0%Z
  end.

Definition toggleRest (now : Z) (s : Screen) : Screen :=
  let prev := tripState s in
  match status (tripState s) with
  | active =>
      setTripState
        (mkTrip resting (startTime prev) (Some now) (totalRestTime prev)) s
  | resting =>
      let restDuration := (now - orZero (restStartTime (tripState s)))%Z in
      setTripState
        (mkTrip active (startTime prev) None
           (totalRestTime prev + restDuration)%Z) s
  | _ => s
  end.

Definition dropOff (s : Screen) : Screen := setShowDropoffDialog true s.

(** [if (tripTimer.current) clearInterval(tripTimer.current)] ends the
    interval. *)
Definition handleDropoffConfirm (s : Screen) : Screen :=
  setTripState (mkTrip completed None None 0) (setTripTimer None s).

Definition resetTrip (s : Screen) : Screen :=
  let resetFare :=
    BASE_FARE + INITIAL_DISTANCE * FARE_RATE + demandValue s in
  setDemandValue 0
    (setFare resetFare
       (setDistance INITIAL_DISTANCE
          (setTripState (mkTrip idle None None 0) (setTripTimer None s)))).

(** The "Yes, Cancel" button of the alert of [handleCancelOrder] (the
    navigation to the orders tab that follows is left out). *)
Definition cancelOrder (s : Screen) : Screen :=
  let resetFare := BASE_FARE + INITIAL_DISTANCE * FARE_RATE in
  setShowCancelButton false
    (setDemandValue 0
       (setFare resetFare
          (setDistance INITIAL_DISTANCE
             (setTripState (mkTrip idle None None 0)
                (setTripTimer None s))))).

(** *** The screen as a transition system *)

(** What can happen to the screen: a press on one of its controls, or a
    firing of the interval. *)
Inductive Event : Type :=
| PressStart (now : Z)        (* "Start Trip": [startTrip] *)
| PressRest (now : Z)         (* "Rest" / "Continue": [toggleRest] *)
| PressDropOff                (* "Drop Off": [dropOff] *)
| DialogConfirm               (* [DropoffDialog]: [onConfirm(); onClose()] *)
| DialogClose                 (* [DropoffDialog]: [onClose()] *)
| PressNewTrip                (* "New Trip": [resetTrip] *)
| ConfirmCancelOrder          (* "Cancel Order", then "Yes, Cancel" *)
| PressPrice (value : Q)      (* a price option: [handlePriceAdd] *)
| PressUndo                   (* "Undo": [handleUndoLast] *)
| ConfirmClear                (* "Clear", then "Clear" in the alert *)
| OpenDemand                  (* [setShowDemandModal(true)] *)
| SelectDemand (demand : Q)   (* [DemandModal]: [handleDemandSelect] *)
| CloseDemand                 (* [DemandModal]: [onClose()] *)
| Tick (increment : Q).       (* the interval fires *)

(** What the event runs. *)
Definition handle (e : Event) (s : Screen) : Screen :=
  match e with
  | PressStart now => startTrip now s
  | PressRest now => toggleRest now s
  | PressDropOff => dropOff s
  | DialogConfirm => setShowDropoffDialog false (handleDropoffConfirm s)
  | DialogClose => setShowDropoffDialog false s
  | PressNewTrip => resetTrip s
  | ConfirmCancelOrder => cancelOrder s
  | PressPrice value => handlePriceAdd value s
  | PressUndo => handleUndoLast s
  | ConfirmClear => clearCumulative s
  | OpenDemand => setShowDemandModal true s
  | SelectDemand demand => handleDemandSelect demand s
  | CloseDemand => setShowDemandModal false s
  | Tick increment => tick increment s
  end.

Definition Q_in (v : Q) (l : list Q) : bool :=
  existsb (Qeq_bool v) l.

(** Whether the screen offers the event: the conditions under which the
    JSX renders the control ([tripState.status === 'idle' && ...] and the
    like), the [visible] prop of the two modals, and a live interval. *)
Definition offered (e : Event) (s : Screen) : bool :=
  let st := status (tripState s) in
  match e with
  | PressStart _ => Status_eqb st idle
  | PressRest _ | PressDropOff => Status_eqb st active || Status_eqb st resting
  | DialogConfirm | DialogClose => showDropoffDialog s
  | PressNewTrip => Status_eqb st completed
  | ConfirmCancelOrder =>
      (Status_eqb st idle || Status_eqb st completed) && showCancelButton s
  | PressPrice value => Q_in value PRICE_OPTIONS
  | PressUndo =>
      match recentAdditions s with
      | [] => false
      | _ :: _ => true
      end
  | ConfirmClear => Qltb 0 (cumulativeTotal s)
  | OpenDemand => true
  | SelectDemand _ | CloseDemand => showDemandModal s
  | Tick _ =>
      match tripTimer s with
      | Some _ => true
      | None => false
      end
  end.

(** The handler of an event runs, the screen renders again, and the fare
    effect runs if its dependencies changed. *)
Definition fire (e : Event) (s : Screen) : Screen := commit s (handle e s).

(** One event on the screen: nothing happens when the screen does not offer
    it. *)
Definition press (e : Event) (s : Screen) : Screen :=
  if offered e s then fire e s else s.

(** The handlers run one after the other, whether the screen offers their
    events or not. *)
Definition fireAll (events : list Event) (s : Screen) : Screen :=
  fold_left (fun s' e => fire e s') events s.

Definition run (events : list Event) (s : Screen) : Screen :=
  fold_left (fun s' e => press e s') events s.

(** *** The transition table of the specification

    Modelled from the spec: the events of the table of its section 4.5 and
    which of them the table lists for a status ([listed]); then, from the
    source, the handler and the control that fire each of them in the
    screen ([operation], [control]). *)
Inductive TripEvent : Type :=
  evStartTrip | evToggleRest | evDropOff | evCancel | evResetTrip.

Definition listed (st : Status) (e : TripEvent) : bool :=
  match e, st with
  | evStartTrip, idle => true
  | evToggleRest, (active | resting) => true
  | evDropOff, (active | resting) => true
  | evCancel, _ => true
  | evResetTrip, completed => true
  | _, _ => false
  end.

Definition operation (e : TripEvent) (now : Z) : Screen -> Screen :=
  match e with
  | evStartTrip => startTrip now
  | evToggleRest => toggleRest now
  | evDropOff => handleDropoffConfirm
  | evCancel => cancelOrder
  | evResetTrip => resetTrip
  end.

Definition control (e : TripEvent) (now : Z) : Event :=
  match e with
  | evStartTrip => PressStart now
  | evToggleRest => PressRest now
  | evDropOff => DialogConfirm
  | evCancel => ConfirmCancelOrder
  | evResetTrip => PressNewTrip
  end.

Definition isSet (t : option Z) : bool :=
  match t with
  | Some _ => true
  | None => false
  end.

(** The time stamps a status comes with in the screen. *)
Definition stampsMatch (t : TripState) : Prop :=
  (isSet (restStartTime t) = true <-> status t = resting)
  /\ (isSet (startTime t) = true
      <-> status t = active \/ status t = resting).

(** Reading a field of a screen built by the setters. *)
Ltac fields :=
  cbn [tripState distance fare showDropoffDialog showCancelButton
       showDemandModal demandValue totalFare cumulativeTotal
       recentAdditions tripTimer setTripState setDistance setFare
       setShowDropoffDialog setShowCancelButton setShowDemandModal
       setDemandValue setTotalFare setCumulativeTotal setRecentAdditions
       setTripTimer status startTime restStartTime totalRestTime
       seenStatus seenDemand currentDistance] in *.

(** *** Invariants of the screen *)

(** Several additions in a row. *)
Definition addAll (vs : list Q) (s : Screen) : Screen :=
  fold_left (fun s' v => handlePriceAdd v s') vs s.

(** The cumulative additions: never negative, and an undo history of at
    most five. *)
Definition additionsOk (s : Screen) : Prop :=
  0 <= cumulativeTotal s /\ (List.length (recentAdditions s) <= 5)%nat.

Definition inProgress (st : Status) : Prop := st = active \/ st = resting.

(** The trip state: the time stamps match the status; the drop-off dialog
    is only open during a trip; outside a trip no interval is live; and a
    live interval was started from the idle screen. *)
Definition tripOk (s : Screen) : Prop :=
  stampsMatch (tripState s)
  /\ (showDropoffDialog s = true -> inProgress (status (tripState s)))
  /\ (~ inProgress (status (tripState s)) -> tripTimer s = None)
  /\ (forall iv, tripTimer s = Some iv -> seenStatus iv = idle).

End Trip.

(* --------------------------------------------------------------------- *)
(** ** Sample data *)
(* --------------------------------------------------------------------- *)

Module Sample.

Definition turnLeft : NavigationInstruction :=
  mkInstruction "Turn left" "0.2 km" "1 min" "turn-left"
    (mkCoords (168661 # 10000) (961951 # 10000)) (Some "Pyay Road"%string) None.

Definition turnRight : NavigationInstruction :=
  mkInstruction "Turn right" "0.4 km" "2 mins" "turn-right"
    (mkCoords (168663 # 10000) (961949 # 10000)) None None.

Definition route : RouteResult :=
  mkRoute [] "0.6 km" "3 mins" [turnLeft; turnRight]
    (mkCoords 17 97) (mkCoords 16 96) EmptyString.

(** A position as far from the anchor of [turnLeft] as from the anchor of
    [turnRight]. *)
Definition between : LocationCoords :=
  mkCoords (168662 # 10000) (961950 # 10000).

(** A stand-in for the distance, to run the tracker on: the sum of the
    differences in latitude and in longitude. *)
Definition taxicab (a b : LocationCoords) : Q :=
  Qabs (latitude a - latitude b) + Qabs (longitude a - longitude b).

(** The three points of the example of the encoding's documentation. *)
Definition points : list LocationCoords :=
  [ mkCoords (385 # 10) (-1202 # 10);
    mkCoords (407 # 10) (-12095 # 100);
    mkCoords (43252 # 1000) (-126453 # 1000) ].

(** The fare formula on IEEE doubles, as the engine evaluates it, and the
    double that the literal [0.1] denotes. *)
Definition calculatedTotalDouble (distance demandValue cumulativeTotal : float)
  : float :=
  (2000 + distance * 600 + demandValue + cumulativeTotal)%float.

Definition initialDistanceDouble : float := 0x1.999999999999ap-4%float.

End Sample.

(* --------------------------------------------------------------------- *)
(** ** Further parts of the navigation screen *)
(* --------------------------------------------------------------------- *)

Module ScreenParts.

Import Trip.

(** The time an event reads off [Date.now()], if it reads it. *)
Definition eventTime (e : Event) : option Z :=
  match e with
  | PressStart now | PressRest now => Some now
  | _ => None
  end.

(** The clock never runs backwards: the times the events read, in their
    order, never decrease, and none is before [t]. *)
Fixpoint clockFrom (t : Z) (events : list Event) : bool :=
  match events with
  | [] => true
  | e :: events' =>
      match eventTime e with
      | Some now => (t <=? now)%Z && clockFrom now events'
      | None => clockFrom t events'
      end
  end.

(** The sum of a list of numbers. *)
Definition total (l : list Q) : Q := fold_right Qplus 0 l.

(** [renderStars]: for each of the five stars whether it is drawn filled,
    [index < Math.floor(rating)]. *)
Definition renderStars (rating : Q) : list bool :=
  map (fun index => (index <? Qfloor rating)%Z) [0; 1; 2; 3; 4]%Z.

(** The undo history holds price options, and their sum is within the
    cumulative total. *)
Definition historyOk (s : Screen) : Prop :=
  Forall (fun v => Q_in v PRICE_OPTIONS = true) (recentAdditions s)
  /\ total (recentAdditions s) <= cumulativeTotal s.

End ScreenParts.

(* --------------------------------------------------------------------- *)
(** ** Encoded strings, cut *)
(* --------------------------------------------------------------------- *)

Module PolylineParts.

Import Polyline.
Local Open Scope Z_scope.

(** The point the encoder has reached after [cs], from ([lat], [lng]). *)
Fixpoint endE5 (lat lng : Z) (cs : list LocationCoords) : Z * Z :=
  match cs with
  | [] => (lat, lng)
  | c :: cs' => endE5 (e5 (latitude c)) (e5 (longitude c)) cs'
  end.

(** The code unit carries the continuation bit. *)
Definition continues (c : Z) : bool := 32 <=? c - 63.

End PolylineParts.

(* --------------------------------------------------------------------- *)
(** ** Sequences of voice updates *)
(* --------------------------------------------------------------------- *)

Module VoiceParts.

Import Voice.

(** An update farther than 100 m from the manoeuvre whose instruction, if
    it has one, reads [t]. *)
Definition farWith (t : string) (props : Props) : Prop :=
  100 < distanceToNext props
  /\ forall i, currentInstruction props = Some i -> text i = t.

(** [repeatInstruction]: the button speaks the current instruction again
    when there is one, the voice is not muted and the service is
    initialised. *)
Definition repeatInstruction (props : Props) (st : State)
  : option Utterance * State :=
  match currentInstruction props with
  | Some instruction =>
      if negb (isMuted st) && isInitialized st
      then let '(u, st') :=
             speakInstruction instruction (distanceToNext props) st in
           (Some u, st')
      else (None, st)
  | None => (None, st)
  end.

End VoiceParts.

(* --------------------------------------------------------------------- *)
(** ** Traffic information *)
(* --------------------------------------------------------------------- *)

Module Traffic.

(** [TrafficInfo['severity']] *)
Inductive Severity : Type := low | medium | high | severe.

(** [calculateTrafficSeverity], on the integers [parseInt] gives.  The
    percentage is [(delay / normalDuration) * 100]; on a [normalDuration] of
    zero the quotient is [Infinity] for a positive delay, which exceeds
    every threshold, and [NaN] or [-Infinity] otherwise, which exceed none.
    (On integers below 2^31 the comparisons of the doubles with 50, 25 and
    10 come out as those of the exact quotient.) *)
Definition calculateTrafficSeverity (delay normalDuration : Z) : Severity :=
  if (normalDuration =? 0)%Z
  then if (0 <? delay)%Z then severe else low
  else
    let delayPercentage := (inject_Z delay / inject_Z normalDuration) * 100 in
    if Qltb 50 delayPercentage then severe
    else if Qltb 25 delayPercentage then high
    else if Qltb 10 delayPercentage then medium
    else low.

(** The [delay] text of [getTrafficAwareETA]:
    [delay > 60 ? `${Math.round(delay / 60)} min delay` : 'No delay']. *)
Inductive DelayText : Type :=
| NoDelay
| MinDelay (minutes : Z).

Definition delayText (delay : Z) : DelayText :=
  if (60 <? delay)%Z
  then MinDelay (Qfloor (inject_Z delay / 60 + (1 # 2)))
  else NoDelay.

(** The [trafficInfo] of [getTrafficAwareETA], from the two durations of
    the distance-matrix element. *)
Definition trafficInfo (normalDuration trafficDuration : Z)
  : Severity * DelayText :=
  let delay := (trafficDuration - normalDuration)%Z in
  (calculateTrafficSeverity delay normalDuration, delayText delay).

End Traffic.

(* --------------------------------------------------------------------- *)
(** ** Instruction text *)
(* --------------------------------------------------------------------- *)

Module Html.

Import Polyline.
Local Open Scope Z_scope.

Definition lt : Z := 60.   (* "<" *)
Definition gt : Z := 62.   (* ">" *)

(** [.replace(/<[^>]*>/g, '')].  A match starts at a "<" that has a ">"
    somewhere after it and runs to the first such ">"; [inTag] tells that
    the scan is inside a match. *)
Fixpoint stripTags (inTag : bool) (s : jsString) : jsString :=
  match s with
  | [] => []
  | c :: rest =>
      if inTag
      then stripTags (negb (c =? gt)) rest
      else if (c =? lt) && existsb (Z.eqb gt) rest
           then stripTags true rest
           else c :: stripTags false rest
  end.

Fixpoint startsWith (pattern s : jsString) : bool :=
  match pattern, s with
  | [], _ => true
  | _ :: _, [] => false
  | p :: pattern', c :: s' => (p =? c) && startsWith pattern' s'
  end.

(** [.replace(/pattern/g, replacement)] for a pattern without special
    characters: the occurrences are found from left to right and do not
    overlap; [skip] counts the units of an occurrence still to pass. *)
Fixpoint replaceFrom (skip : nat) (pattern replacement s : jsString)
  : jsString :=
  match s with
  | [] => []
  | c :: rest =>
      match skip with
      | S skip' => replaceFrom skip' pattern replacement rest
      | O =>
          match pattern with
          | [] => c :: replaceFrom O pattern replacement rest
          | _ :: pattern' =>
              if startsWith pattern s
              then replacement
                     ++ replaceFrom (List.length pattern') pattern replacement rest
              else c :: replaceFrom O pattern replacement rest
          end
      end
  end.

Definition replaceAll (pattern replacement s : jsString) : jsString :=
  replaceFrom O pattern replacement s.

(** White space and line terminators, which [trim] removes. *)
Definition isSpace (c : Z) : bool :=
  existsb (Z.eqb c)
    [9; 10; 11; 12; 13; 32; 160; 5760; 8232; 8233; 8239; 8287; 12288; 65279]
  || ((8192 <=? c) && (c <=? 8202)).

Fixpoint trimStart (s : jsString) : jsString :=
  match s with
  | [] => []
  | c :: rest => if isSpace c then trimStart rest else s
  end.

Definition trim (s : jsString) : jsString :=
  rev (trimStart (rev (trimStart s))).

(** [[
    html.replace(/<[^>]*>/g, '')
        .replace(/&nbsp;/g, ' ')
        .replace(/&amp;/g, '&')
        .trim()
    ]] *)
Definition cleanHtmlInstructions (html : jsString) : jsString :=
  trim
    (replaceAll (codeUnits "&amp;") (codeUnits "&")
       (replaceAll (codeUnits "&nbsp;") (codeUnits " ")
          (stripTags false html))).

(** A "<" with a ">" somewhere after it: what a tag needs. *)
Fixpoint hasTag (s : jsString) : bool :=
  match s with
  | [] => false
  | c :: rest => ((c =? lt) && existsb (Z.eqb gt) rest) || hasTag rest
  end.

(** The angle brackets of a string, in their order. *)
Definition brackets (s : jsString) : jsString :=
  filter (fun c => (c =? lt) || (c =? gt)) s.

Definition noBracket (c : Z) : Prop := (c =? lt) || (c =? gt) = false.

End Html.

(* ===================================================================== *)
(** * Theorems *)
(* ===================================================================== *)

(* --------------------------------------------------------------------- *)
(** ** Polyline codec *)
(* --------------------------------------------------------------------- *)

Section PolylineFacts.

Import Polyline.
Local Open Scope Z_scope.

Lemma toInt32_small (z : Z) : - 2 ^ 31 <= z < 2 ^ 31 -> toInt32 z = z.
Proof.
  intros Hz. unfold toInt32.
  rewrite Z.mod_small; lia.
Qed.

Lemma toInt32_range (z : Z) : - 2 ^ 31 <= toInt32 z < 2 ^ 31.
Proof.
  unfold toInt32.
  pose proof (Z.mod_pos_bound (z + 2 ^ 31) (2 ^ 32) ltac:(lia)). lia.
Qed.

(** Or-ing in bits above the ones already set is an addition. *)
Lemma lor_shiftl_add (a b n : Z) :
  0 <= n -> 0 <= a < 2 ^ n -> Z.lor a (Z.shiftl b n) = a + b * 2 ^ n.
Proof.
  intros Hn Ha.
  rewrite <- Z.shiftl_mul_pow2 by lia.
  rewrite <- Z.lxor_lor, <- Z.add_nocarry_lxor; try reflexivity.
  all: apply Z.bits_inj'; intros i Hi; rewrite Z.land_spec, Z.bits_0.
  all: destruct (Z.lt_ge_cases i n) as [Hlt | Hge].
  all: try (rewrite Z.shiftl_spec_low by lia; apply andb_false_r).
  all: destruct (Z.eq_dec a 0) as [-> | Hnz];
    [ rewrite Z.bits_0; reflexivity | ].
  all: rewrite (Z.bits_above_log2 a i); [ reflexivity | lia | ].
  all: apply Z.lt_le_trans with n; [ apply Z.log2_lt_pow2; lia | lia ].
Qed.

Lemma land_31 (v : Z) : Z.land v 31 = v mod 32.
Proof. change 31 with (Z.ones 5). rewrite Z.land_ones by lia. reflexivity. Qed.

Lemma group_byte (v : Z) : Z.lor 32 (Z.land v 31) = 32 + v mod 32.
Proof.
  rewrite land_31, Z.lor_comm.
  pose proof (Z.mod_pos_bound v 32 ltac:(lia)).
  change 32 with (Z.shiftl 1 5) at 2.
  rewrite lor_shiftl_add; change (2 ^ 5) with 32; lia.
Qed.

(** One round of the inner loop on a code unit whose low five bits are
    [m]: the bits land at position [shift]. *)
Lemma group_step (byte m shift result : Z) :
  - 2 ^ 31 <= byte < 2 ^ 31 -> byte mod 32 = m ->
  0 <= shift <= 30 -> 0 <= result < 2 ^ shift ->
  result + m * 2 ^ shift < 2 ^ 31 ->
  or32 result (shl32 (and32 byte 31) shift) = result + m * 2 ^ shift.
Proof.
  intros Hb Hm Hs Hr Hsum.
  assert (Hm32 : 0 <= m < 32) by (subst m; apply Z.mod_pos_bound; lia).
  assert (Hpow : 0 < 2 ^ shift) by (apply Z.pow_pos_nonneg; lia).
  assert (Hpow30 : 2 ^ shift <= 2 ^ 30)
    by (apply Z.pow_le_mono_r; lia).
  unfold or32, shl32, and32.
  rewrite (toInt32_small byte) by assumption.
  rewrite (toInt32_small 31) by lia.
  rewrite land_31, Hm.
  rewrite (toInt32_small m) by lia.
  rewrite (toInt32_small m) by lia.
  rewrite (land_31 shift), (Z.mod_small shift 32) by lia.
  rewrite Z.shiftl_mul_pow2 by lia.
  rewrite (toInt32_small (m * 2 ^ shift)) by nia.
  rewrite (toInt32_small (m * 2 ^ shift)) by nia.
  rewrite (toInt32_small result) by lia.
  rewrite <- Z.shiftl_mul_pow2 by lia.
  rewrite lor_shiftl_add, Z.shiftl_mul_pow2 by lia.
  apply toInt32_small. nia.
Qed.

(** Reading back the groups of a non-negative value below [2 ^ 31]. *)
Lemma readGroups_encodeGroups (fuel : nat) :
  forall v shift result rest,
    0 <= v -> Z.log2 v <= Z.of_nat fuel ->
    0 <= shift <= 30 -> 0 <= result < 2 ^ shift ->
    result + v * 2 ^ shift < 2 ^ 31 ->
    readGroups (encodeGroups fuel v ++ rest) shift result
    = (result + v * 2 ^ shift, rest).
Proof.
  assert (Hlast : forall v shift result rest,
    0 <= v < 32 -> 0 <= shift <= 30 -> 0 <= result < 2 ^ shift ->
    result + v * 2 ^ shift < 2 ^ 31 ->
    readGroups ([v + 63] ++ rest) shift result
    = (result + v * 2 ^ shift, rest)).
  { intros v shift result rest Hv Hs Hr Hsum. cbn [app readGroups].
    rewrite Z.add_simpl_r.
    rewrite (group_step _ v); try lia.
    - destruct (32 <=? v) eqn:E; [ apply Z.leb_le in E; lia | reflexivity ].
    - apply Z.mod_small; lia. }
  induction fuel as [| fuel IH]; intros v shift result rest Hv Hlog Hs Hr Hsum.
  - apply Hlast; try assumption.
    destruct (Z.eq_dec v 0) as [-> | Hnz]; [ lia | ].
    assert (v < 2 ^ 1) by (apply Z.log2_lt_pow2; lia). lia.
  - cbn [encodeGroups].
    destruct (32 <=? v) eqn:E.
    + apply Z.leb_le in E.
      assert (Hpow : 0 < 2 ^ shift) by (apply Z.pow_pos_nonneg; lia).
      assert (Hs5 : shift + 5 <= 30).
      { assert (2 ^ (shift + 5) < 2 ^ 31).
        { rewrite Z.pow_add_r by lia. change (2 ^ 5) with 32. nia. }
        apply Z.pow_lt_mono_r_iff in H; lia. }
      pose proof (Z.mod_pos_bound v 32 ltac:(lia)) as Hmod.
      pose proof (Z.div_mod v 32 ltac:(lia)) as Hdm.
      assert (Hdiv : 0 < v / 32) by (apply Z.div_str_pos; lia).
      cbn [app readGroups].
      rewrite Z.add_simpl_r, group_byte.
      rewrite (group_step _ (v mod 32));
        [ | lia
          | replace (32 + v mod 32) with (v mod 32 + 1 * 32) by lia;
            rewrite Z.mod_add by lia; apply Z.mod_mod; lia
          | lia | lia | nia ].
      replace (32 <=? 32 + v mod 32) with true
        by (symmetry; apply Z.leb_le; lia).
      rewrite Z.shiftr_div_pow2 by lia. change (2 ^ 5) with 32.
      rewrite IH.
      * f_equal. rewrite Z.pow_add_r by lia. change (2 ^ 5) with 32. nia.
      * lia.
      * assert (Hl := Z.log2_shiftr v 5 ltac:(lia)).
        rewrite Z.shiftr_div_pow2 in Hl by lia.
        change (2 ^ 5) with 32 in Hl. lia.
      * lia.
      * rewrite Z.pow_add_r by lia. change (2 ^ 5) with 32. nia.
      * rewrite Z.pow_add_r by lia. change (2 ^ 5) with 32. nia.
    + apply Z.leb_gt in E. apply Hlast; lia.
Qed.

Lemma zigzag_range (d : Z) :
  - 2 ^ 30 <= d < 2 ^ 30 -> 0 <= zigzag d < 2 ^ 31.
Proof.
  intros Hd. unfold zigzag.
  destruct (d <? 0) eqn:E;
    [ apply Z.ltb_lt in E | apply Z.ltb_ge in E ];
    unfold Z.lnot; rewrite Z.shiftl_mul_pow2 by lia; lia.
Qed.

Lemma delta_zigzag (d : Z) : - 2 ^ 30 <= d < 2 ^ 30 -> delta (zigzag d) = d.
Proof.
  intros Hd. pose proof (zigzag_range d Hd) as Hz.
  unfold delta, and32, sar32, not32.
  rewrite (toInt32_small (zigzag d)), (toInt32_small 1) by lia.
  change (Z.land 1 31) with 1.
  change 1 with (Z.ones 1) at 1. rewrite Z.land_ones by lia.
  rewrite (toInt32_small (zigzag d mod 2 ^ 1))
    by (pose proof (Z.mod_pos_bound (zigzag d) (2 ^ 1) ltac:(lia)); lia).
  rewrite Z.shiftr_div_pow2 by lia.
  rewrite (toInt32_small (zigzag d / 2 ^ 1))
    by (change (2 ^ 1) with 2; split;
        [ apply Z.le_trans with 0; [ lia | apply Z.div_pos; lia ]
        | apply Z.div_lt_upper_bound; lia ]).
  change (2 ^ 1) with 2. unfold zigzag in *.
  destruct (d <? 0) eqn:E;
    [ apply Z.ltb_lt in E | apply Z.ltb_ge in E ];
    unfold Z.lnot in *; rewrite Z.shiftl_mul_pow2 in * by lia;
    change (2 ^ 1) with 2 in *.
  - replace (Z.pred (- (d * 2))) with (1 + (- d - 1) * 2) by lia.
    rewrite Z.mod_add, Z.div_add by lia. simpl. lia.
  - rewrite Z.mod_mul, Z.div_mul by lia. reflexivity.
Qed.

Lemma readGroups_encodeValue (d : Z) (rest : jsString) :
  - 2 ^ 30 <= d < 2 ^ 30 ->
  readGroups (encodeValue d ++ rest) 0 0 = (zigzag d, rest).
Proof.
  intros Hd. pose proof (zigzag_range d Hd) as Hz.
  unfold encodeValue.
  rewrite readGroups_encodeGroups; rewrite ?Z.pow_0_r; try lia.
  rewrite Z.mul_1_r, Z.add_0_l. reflexivity.
Qed.

Lemma encodeValue_cons (d : Z) :
  exists c l, encodeValue d = c :: l.
Proof.
  unfold encodeValue.
  destruct (Z.to_nat (Z.log2 (zigzag d))) as [| fuel]; cbn [encodeGroups].
  - eauto.
  - destruct (32 <=? zigzag d); eauto.
Qed.

Lemma e5_lat_range (c : Q) :
  (-90 <= c <= 90)%Q -> - 9000000 <= e5 c <= 9000000.
Proof.
  intros [Hlo Hhi]. unfold e5. split.
  - change (- 9000000) with (Qfloor (-90 * 100000 + (1 # 2))).
    apply Qfloor_resp_le. lra.
  - change 9000000 with (Qfloor (90 * 100000 + (1 # 2))).
    apply Qfloor_resp_le. lra.
Qed.

Lemma e5_lng_range (c : Q) :
  (-180 <= c <= 180)%Q -> - 18000000 <= e5 c <= 18000000.
Proof.
  intros [Hlo Hhi]. unfold e5. split.
  - change (- 18000000) with (Qfloor (-180 * 100000 + (1 # 2))).
    apply Qfloor_resp_le. lra.
  - change 18000000 with (Qfloor (180 * 100000 + (1 # 2))).
    apply Qfloor_resp_le. lra.
Qed.

(** Rounding to the nearest multiple of 1e-5 moves a coordinate by at most
    half of 1e-5. *)
Lemma e5_error (c : Q) : (Qabs ((e5 c # 100000) - c) <= 1 # 100000)%Q.
Proof.
  unfold e5. set (x := (c * 100000 + (1 # 2))%Q).
  pose proof (Qfloor_le x) as Hlo.
  pose proof (Qlt_floor x) as Hhi.
  rewrite inject_Z_plus in Hhi.
  assert (Hq : ((Qfloor x # 100000) * 100000 == inject_Z (Qfloor x))%Q).
  { unfold Qeq, inject_Z. simpl. lia. }
  apply Qabs_Qle_condition.
  generalize dependent (inject_Z (Qfloor x)).
  generalize (Qfloor x # 100000)%Q.
  subst x. intros q z Hlo Hhi Hq.
  change (inject_Z 1) with 1%Q in Hhi. split; lra.
Qed.

Lemma decodeLoop_round (fuel : nat) (rest : jsString) (lat lng : Z) :
  rest <> [] ->
  decodeLoop (S fuel) rest lat lng
  = let '(result, rest1) := readGroups rest 0 0 in
    let '(result2, rest2) := readGroups rest1 0 0 in
    coordsE5 (lat + delta result) (lng + delta result2)
      :: decodeLoop fuel rest2 (lat + delta result) (lng + delta result2).
Proof.
  intros Hne. destruct rest as [| c rest]; [ congruence | ].
  cbn [decodeLoop].
  destruct (readGroups (c :: rest) 0 0) as [result rest1].
  destruct (readGroups rest1 0 0) as [result2 rest2]. reflexivity.
Qed.

Lemma decodeLoop_encodeFrom (cs : list LocationCoords) :
  forall fuel lat lng,
    Forall wgs84 cs ->
    - 9000000 <= lat <= 9000000 -> - 18000000 <= lng <= 18000000 ->
    (List.length (encodeFrom lat lng cs) <= fuel)%nat ->
    decodeLoop fuel (encodeFrom lat lng cs) lat lng = map quantize cs.
Proof.
  induction cs as [| c cs IH]; intros fuel lat lng Hall Hlat Hlng Hfuel.
  - destruct fuel; reflexivity.
  - inversion Hall as [| c' cs' [Hclat Hclng] Hall']; subst.
    apply e5_lat_range in Hclat. apply e5_lng_range in Hclng.
    cbn [encodeFrom map] in *.
    destruct (encodeValue_cons (e5 (latitude c) - lat)) as (u & l & Hu).
    destruct fuel as [| fuel];
      [ rewrite Hu in Hfuel; cbn in Hfuel; lia | ].
    rewrite decodeLoop_round by (rewrite Hu; discriminate).
    rewrite readGroups_encodeValue by lia.
    rewrite readGroups_encodeValue by lia.
    rewrite !delta_zigzag by lia.
    replace (lat + (e5 (latitude c) - lat)) with (e5 (latitude c)) by lia.
    replace (lng + (e5 (longitude c) - lng)) with (e5 (longitude c)) by lia.
    unfold quantize at 1. f_equal.
    apply IH; try assumption.
    rewrite Hu in Hfuel. rewrite !length_app in Hfuel.
    cbn [List.length] in Hfuel. lia.
Qed.

Lemma decodePolyline_encodePolyline (cs : list LocationCoords) :
  Forall wgs84 cs -> decodePolyline (encodePolyline cs) = map quantize cs.
Proof.
  intros Hall. unfold decodePolyline, encodePolyline.
  apply decodeLoop_encodeFrom; try assumption; lia.
Qed.

Lemma quantize_within (c : LocationCoords) : within1e5 c (quantize c).
Proof. split; apply e5_error. Qed.

(** *** Strings that end inside a value *)

Lemma readGroups_length (rest : jsString) :
  forall shift result,
    (List.length (snd (readGroups rest shift result)) <= List.length rest)%nat.
Proof.
  induction rest as [| c rest IH]; intros shift result; cbn [readGroups].
  - apply Nat.le_refl.
  - destruct (32 <=? c - 63); cbn [snd List.length].
    + specialize (IH (shift + 5)
        (or32 result (shl32 (and32 (c - 63) 31) shift))). lia.
    + lia.
Qed.

Lemma readGroups_length_cons (c : Z) (rest : jsString) (shift result : Z) :
  (List.length (snd (readGroups (c :: rest) shift result))
   <= List.length rest)%nat.
Proof.
  cbn [readGroups]. destruct (32 <=? c - 63).
  - apply readGroups_length.
  - apply Nat.le_refl.
Qed.

(** The loop ends because the string is used up, never because the bound
    on its rounds is reached. *)
Lemma decodeLoop_fuel (fuel : nat) :
  forall fuel' rest lat lng,
    (List.length rest <= fuel)%nat -> (List.length rest <= fuel')%nat ->
    decodeLoop fuel rest lat lng = decodeLoop fuel' rest lat lng.
Proof.
  induction fuel as [| fuel IH]; intros fuel' rest lat lng H H'.
  - destruct rest; [ destruct fuel'; reflexivity | cbn in H; lia ].
  - destruct rest as [| c rest]; [ destruct fuel'; reflexivity | ].
    destruct fuel' as [| fuel']; [ cbn in H'; lia | ].
    rewrite !decodeLoop_round by discriminate.
    pose proof (readGroups_length_cons c rest 0 0) as L1.
    destruct (readGroups (c :: rest) 0 0) as [result rest1].
    pose proof (readGroups_length rest1 0 0) as L2.
    destruct (readGroups rest1 0 0) as [result2 rest2].
    cbn [snd List.length] in *.
    f_equal. apply IH; lia.
Qed.

(** A zero group appended to a string that ends inside a value is read as
    the end of the string is: it adds no bit and ends the value. *)
Lemma readGroups_pad (rest : jsString) :
  forall shift result,
    endsMidCodepoint rest = true ->
    readGroups (rest ++ [63]) shift result
    = (fst (readGroups rest shift result),
       match snd (readGroups rest shift result) with
       | [] => []
       | c :: rest1 => (c :: rest1) ++ [63]
       end)
    /\ (snd (readGroups rest shift result) = []
        \/ endsMidCodepoint (snd (readGroups rest shift result)) = true).
Proof.
  induction rest as [| c rest IH]; intros shift result Hmid.
  - discriminate.
  - destruct rest as [| c' rest'].
    + cbn [endsMidCodepoint] in Hmid.
      cbn [app readGroups]. rewrite Hmid.
      change (63 - 63) with 0. change (32 <=? 0) with false.
      change (and32 0 31) with 0.
      cbn [fst snd]. split; [ reflexivity | left; reflexivity ].
    + change (endsMidCodepoint (c' :: rest') = true) in Hmid.
      rewrite <- app_comm_cons.
      cbn [readGroups]. destruct (32 <=? c - 63).
      * apply IH. exact Hmid.
      * cbn [fst snd]. split; [ reflexivity | right; exact Hmid ].
Qed.

Lemma decodeLoop_pad (fuel : nat) :
  forall rest lat lng,
    endsMidCodepoint rest = true ->
    decodeLoop fuel (rest ++ [63]) lat lng = decodeLoop fuel rest lat lng.
Proof.
  induction fuel as [| fuel IH]; intros rest lat lng Hmid.
  - reflexivity.
  - assert (Hne : rest <> []) by (intros ->; discriminate).
    rewrite (decodeLoop_round fuel (rest ++ [63]))
      by (destruct rest; [ congruence | discriminate ]).
    rewrite (decodeLoop_round fuel rest) by assumption.
    destruct (readGroups_pad rest 0 0 Hmid) as [-> Hrest1].
    destruct (readGroups rest 0 0) as [result rest1]. cbn [fst snd] in *.
    destruct rest1 as [| c1 rest1].
    + cbn [readGroups]. destruct fuel; reflexivity.
    + destruct Hrest1 as [Hnil | Hmid1]; [ discriminate | ].
      destruct (readGroups_pad (c1 :: rest1) 0 0 Hmid1) as [-> Hrest2].
      destruct (readGroups (c1 :: rest1) 0 0) as [result2 rest2].
      cbn [fst snd] in *.
      destruct rest2 as [| c2 rest2].
      * destruct fuel; reflexivity.
      * destruct Hrest2 as [Hnil | Hmid2]; [ discriminate | ].
        f_equal. apply IH. exact Hmid2.
Qed.

Lemma decodePolyline_nonempty (encoded : jsString) :
  encoded <> [] -> decodePolyline encoded <> [].
Proof.
  intros Hne. unfold decodePolyline.
  destruct encoded as [| c rest]; [ congruence | ].
  cbn [List.length]. rewrite decodeLoop_round by discriminate.
  destruct (readGroups (c :: rest) 0 0) as [result rest1].
  destruct (readGroups rest1 0 0) as [result2 rest2]. discriminate.
Qed.

End PolylineFacts.

(* --------------------------------------------------------------------- *)
(** ** Route-progress tracker *)
(* --------------------------------------------------------------------- *)

Section TrackerFacts.

Import Tracker.

Variable calculateDistance : LocationCoords -> LocationCoords -> Q.
Variable currentCoords : LocationCoords.

Local Abbreviation dist := (distanceTo calculateDistance currentCoords).

Lemma Qltb_lt (x y : Q) : Qltb x y = true <-> x < y.
Proof.
  unfold Qltb. rewrite negb_true_iff. split.
  - intros H. apply Qnot_le_lt. intros Hle.
    apply Qle_bool_iff in Hle. congruence.
  - intros H. destruct (Qle_bool y x) eqn:E; [ | reflexivity ].
    apply Qle_bool_iff in E. apply Qle_not_lt in E. contradiction.
Qed.

Lemma Qltb_ge (x y : Q) : Qltb x y = false <-> y <= x.
Proof.
  unfold Qltb. rewrite negb_false_iff. apply Qle_bool_iff.
Qed.

(** The loop, from any [minDistance] and [closestInstruction]: either no
    instruction is closer than [minDistance] and both are kept, or the
    result is the first instruction of least distance. *)
Lemma fold_visit (l : list NavigationInstruction) :
  forall (m : Q) (c : option NavigationInstruction),
    ((forall x, In x l -> m <= dist x)
     /\ fold_left (visit calculateDistance currentCoords) l (m, c) = (m, c))
    \/ (exists k i,
           nth_error l k = Some i
           /\ fold_left (visit calculateDistance currentCoords) l (m, c)
              = (dist i, Some i)
           /\ dist i < m
           /\ (forall x, In x l -> dist i <= dist x)
           /\ (forall j x, (j < k)%nat -> nth_error l j = Some x ->
                           dist i < dist x)).
Proof.
  induction l as [| a l IH]; intros m c.
  - left. split; [ intros x [] | reflexivity ].
  - cbn [fold_left]. unfold visit at 2 4. cbn [fst].
    destruct (Qltb (dist a) m) eqn:E.
    + apply Qltb_lt in E.
      destruct (IH (dist a) (Some a)) as [[Hall Heq] | (k & i & Hk & Heq & Hlt & Hmin & Hlow)].
      * right. exists 0%nat, a. rewrite Heq.
        repeat split; try assumption; try reflexivity.
        -- intros x [<- | Hx]; [ apply Qle_refl | apply Hall, Hx ].
        -- intros j x Hj. inversion Hj.
      * right. exists (S k), i. rewrite Heq.
        repeat split; try assumption; try reflexivity.
        -- apply Qlt_trans with (dist a); assumption.
        -- intros x [<- | Hx]; [ apply Qlt_le_weak, Hlt | apply Hmin, Hx ].
        -- intros [| j] x Hj Hx; cbn in Hx.
           ++ inversion Hx; subst. exact Hlt.
           ++ apply (Hlow j x); [ lia | exact Hx ].
    + apply Qltb_ge in E.
      destruct (IH m c) as [[Hall Heq] | (k & i & Hk & Heq & Hlt & Hmin & Hlow)].
      * left. split; [ | exact Heq ].
        intros x [<- | Hx]; [ exact E | apply Hall, Hx ].
      * right. exists (S k), i. rewrite Heq.
        repeat split; try assumption; try reflexivity.
        -- intros x [<- | Hx]; [ | apply Hmin, Hx ].
           apply Qlt_le_weak, Qlt_le_trans with m; assumption.
        -- intros [| j] x Hj Hx; cbn in Hx.
           ++ inversion Hx; subst.
              apply Qlt_le_trans with m; assumption.
           ++ apply (Hlow j x); [ lia | exact Hx ].
Qed.

End TrackerFacts.

(* --------------------------------------------------------------------- *)
(** ** Trip state and fare *)
(* --------------------------------------------------------------------- *)

Section TripFacts.

Import Trip.

(** Induction over the events the screen has seen since its mount. *)
Lemma run_invariant (P : Screen -> Prop) :
  (forall e s, P s -> offered e s = true -> P (commit s (handle e s))) ->
  forall events s, P s -> P (run events s).
Proof.
  intros Hstep events. unfold run.
  induction events as [| e events IH]; intros s Hs; cbn [fold_left].
  - exact Hs.
  - apply IH. unfold press, fire.
    destruct (offered e s) eqn:E; [ apply Hstep; assumption | exact Hs ].
Qed.

Lemma run_app (l1 l2 : list Event) (s : Screen) :
  run (l1 ++ l2) s = run l2 (run l1 s).
Proof. unfold run. apply fold_left_app. Qed.

(** The fare effect touches [fare] and [totalFare] only. *)
Lemma commit_fields (before after : Screen) :
  tripState (commit before after) = tripState after
  /\ distance (commit before after) = distance after
  /\ demandValue (commit before after) = demandValue after
  /\ cumulativeTotal (commit before after) = cumulativeTotal after
  /\ recentAdditions (commit before after) = recentAdditions after
  /\ showDropoffDialog (commit before after) = showDropoffDialog after
  /\ showDemandModal (commit before after) = showDemandModal after
  /\ showCancelButton (commit before after) = showCancelButton after
  /\ tripTimer (commit before after) = tripTimer after.
Proof.
  unfold commit. destruct (depsChanged before after);
    repeat split; reflexivity.
Qed.

Lemma commit_tripState (before after : Screen) :
  tripState (commit before after) = tripState after.
Proof. apply commit_fields. Qed.

Lemma commit_cumulativeTotal (before after : Screen) :
  cumulativeTotal (commit before after) = cumulativeTotal after.
Proof. apply commit_fields. Qed.

Lemma commit_recentAdditions (before after : Screen) :
  recentAdditions (commit before after) = recentAdditions after.
Proof. apply commit_fields. Qed.

(** No handler sets [totalFare]: only the effect does. *)
Lemma handle_totalFare (e : Event) (s : Screen) :
  totalFare (handle e s) = totalFare s.
Proof.
  destruct e; cbn [handle]; try reflexivity.
  - unfold toggleRest. destruct (status (tripState s)); reflexivity.
  - unfold handleUndoLast. destruct (recentAdditions s); reflexivity.
  - unfold tick. destruct (tripTimer s) as [iv |]; [ | reflexivity ].
    destruct (Status_eqb (seenStatus iv) active); reflexivity.
Qed.

Lemma depsChanged_false (before after : Screen) :
  depsChanged before after = false ->
  distance before == distance after
  /\ demandValue before == demandValue after
  /\ cumulativeTotal before == cumulativeTotal after.
Proof.
  unfold depsChanged. rewrite negb_false_iff, !andb_true_iff.
  intros [[H1 H2] H3]. repeat split; apply Qeq_bool_iff; assumption.
Qed.

(** After every commit the total is the formula over the current inputs. *)
Lemma commit_priced (before after : Screen) :
  totalFare before == calculatedTotal before ->
  totalFare after = totalFare before ->
  totalFare (commit before after) == calculatedTotal (commit before after).
Proof.
  intros Hb Ht. unfold commit.
  destruct (depsChanged before after) eqn:E.
  - reflexivity.
  - apply depsChanged_false in E. destruct E as (Hd & Hv & Hc).
    rewrite Ht, Hb. unfold calculatedTotal.
    rewrite Hd, Hv, Hc. reflexivity.
Qed.

Lemma run_priced (events : list Event) (s : Screen) :
  totalFare s == calculatedTotal s ->
  totalFare (run events s) == calculatedTotal (run events s).
Proof.
  apply (run_invariant (fun s => totalFare s == calculatedTotal s)).
  intros e s' Hs' _. apply commit_priced; [ exact Hs' | ].
  apply handle_totalFare.
Qed.

Lemma fireAll_priced (events : list Event) :
  forall s,
    totalFare s == calculatedTotal s ->
    totalFare (fireAll events s) == calculatedTotal (fireAll events s).
Proof.
  unfold fireAll.
  induction events as [| e events IH]; intros s Hs; cbn [fold_left].
  - exact Hs.
  - apply IH. apply commit_priced; [ exact Hs | apply handle_totalFare ].
Qed.

Lemma mount_priced (b : bool) :
  totalFare (mount b) == calculatedTotal (mount b).
Proof. reflexivity. Qed.

(** *** Cumulative additions *)

Lemma price_option_positive (v : Q) :
  Q_in v PRICE_OPTIONS = true -> 0 < v.
Proof.
  unfold Q_in, PRICE_OPTIONS. cbn [existsb].
  rewrite !orb_true_iff.
  intros [H | [H | [H | [H | H]]]]; try discriminate;
    apply Qeq_bool_iff in H; rewrite H; reflexivity.
Qed.

Lemma sliceLast_length (n : nat) (l : list Q) :
  (List.length (sliceLast n l) <= n)%nat.
Proof. unfold sliceLast. rewrite length_skipn. lia. Qed.

Lemma sliceLast_all (n : nat) (l : list Q) :
  (List.length l <= n)%nat -> sliceLast n l = l.
Proof.
  intros H. unfold sliceLast.
  replace (List.length l - n)%nat with 0%nat by lia. reflexivity.
Qed.

(** Keeping four and appending one is keeping the last five. *)
Lemma sliceLast_snoc (l : list Q) (v : Q) :
  sliceLast 4 l ++ [v] = sliceLast 5 (l ++ [v]).
Proof.
  unfold sliceLast. rewrite length_app. cbn [List.length].
  replace (List.length l + 1 - 5)%nat with (List.length l - 4)%nat by lia.
  rewrite skipn_app.
  replace (List.length l - 4 - List.length l)%nat with 0%nat by lia.
  reflexivity.
Qed.

Lemma sliceLast_sliceLast_app (l vs : list Q) :
  sliceLast 5 (sliceLast 5 l ++ vs) = sliceLast 5 (l ++ vs).
Proof.
  unfold sliceLast.
  pose proof (firstn_skipn (List.length l - 5) l) as Hl.
  assert (Hh : List.length (firstn (List.length l - 5) l)
               = (List.length l - 5)%nat)
    by (apply firstn_length_le; lia).
  assert (Ht : List.length (skipn (List.length l - 5) l)
               = (List.length l - (List.length l - 5))%nat)
    by apply length_skipn.
  set (h := firstn (List.length l - 5) l) in *.
  set (t := skipn (List.length l - 5) l) in *.
  replace (l ++ vs) with (h ++ (t ++ vs))
    by (rewrite app_assoc, Hl; reflexivity).
  rewrite (length_app h), (skipn_app _ h).
  destruct (Nat.le_gt_cases 5 (List.length l)) as [Hge | Hlt].
  - assert (Htv : List.length (t ++ vs) = (5 + List.length vs)%nat)
      by (rewrite length_app; lia).
    rewrite (skipn_all2 h) by lia.
    cbn [app]. f_equal. lia.
  - assert (Hnil : h = []) by (apply length_zero_iff_nil; lia).
    rewrite Hnil. cbn [List.length app]. rewrite skipn_nil.
    cbn [app]. f_equal. lia.
Qed.

(** The undo history is the last five of the additions made. *)
Lemma addAll_recentAdditions (vs : list Q) :
  forall s,
    sliceLast 5 (recentAdditions (addAll vs s))
    = sliceLast 5 (recentAdditions s ++ vs)
    /\ (vs <> [] ->
        recentAdditions (addAll vs s) = sliceLast 5 (recentAdditions s ++ vs)).
Proof.
  unfold addAll.
  induction vs as [| v vs IH]; intros s; cbn [fold_left].
  - rewrite app_nil_r. split; [ reflexivity | congruence ].
  - destruct (IH (handlePriceAdd v s)) as [IH1 IH2].
    cbn [handlePriceAdd recentAdditions setRecentAdditions] in IH1, IH2.
    rewrite sliceLast_snoc in IH1, IH2.
    rewrite sliceLast_sliceLast_app, <- app_assoc in IH1, IH2.
    cbn [app] in IH1, IH2.
    split; [ exact IH1 | intros _ ].
    destruct vs as [| v' vs']; [ | apply IH2; discriminate ].
    cbn [fold_left handlePriceAdd recentAdditions setRecentAdditions].
    apply sliceLast_snoc.
Qed.

Lemma removelast_length (l : list Q) :
  List.length (removelast l) = (List.length l - 1)%nat.
Proof.
  induction l as [| a [| b l] IH]; try reflexivity.
  change (removelast (a :: b :: l)) with (a :: removelast (b :: l)).
  cbn [List.length] in *. rewrite IH. lia.
Qed.

Lemma handleUndoLast_length (s : Screen) :
  List.length (recentAdditions (handleUndoLast s))
  = (List.length (recentAdditions s) - 1)%nat.
Proof.
  unfold handleUndoLast.
  destruct (recentAdditions s) as [| a l] eqn:E.
  - rewrite E. reflexivity.
  - cbn [recentAdditions setRecentAdditions]. apply removelast_length.
Qed.

Lemma handleUndoLast_nonneg (s : Screen) :
  0 <= cumulativeTotal s -> 0 <= cumulativeTotal (handleUndoLast s).
Proof.
  intros H. unfold handleUndoLast.
  destruct (recentAdditions s) as [| a l]; [ exact H | ].
  cbn [cumulativeTotal setRecentAdditions setCumulativeTotal].
  apply Q.le_max_l.
Qed.

(** Undoing an addition just made gives the total back, and takes that
    addition (only) off the history. *)
Lemma undo_add (v : Q) (s : Screen) :
  cumulativeTotal (handleUndoLast (handlePriceAdd v s))
  == Qmax 0 (cumulativeTotal s)
  /\ recentAdditions (handleUndoLast (handlePriceAdd v s))
     = sliceLast 4 (recentAdditions s).
Proof.
  unfold handleUndoLast.
  cbn [handlePriceAdd recentAdditions setRecentAdditions setCumulativeTotal].
  destruct (sliceLast 4 (recentAdditions s) ++ [v]) as [| a l] eqn:E.
  - destruct (sliceLast 4 (recentAdditions s)); discriminate.
  - rewrite <- E.
    cbn [cumulativeTotal recentAdditions setRecentAdditions
         setCumulativeTotal].
    rewrite last_last, removelast_last. split; [ | reflexivity ].
    apply Q.max_compat; [ reflexivity | ].
    unfold handlePriceAdd.
    cbn [cumulativeTotal setRecentAdditions setCumulativeTotal]. lra.
Qed.

Lemma mount_additionsOk (b : bool) : additionsOk (mount b).
Proof. split; [ apply Qle_refl | cbn; lia ]. Qed.

Lemma handle_additionsOk (e : Event) (s : Screen) :
  additionsOk s -> offered e s = true -> additionsOk (handle e s).
Proof.
  intros [Hc Hl] Hoff. unfold additionsOk.
  destruct e; cbn [handle]; try (split; assumption).
  - unfold toggleRest. destruct (status (tripState s)); split; assumption.
  - cbn [offered] in Hoff. apply price_option_positive in Hoff.
    cbn [handlePriceAdd cumulativeTotal recentAdditions setRecentAdditions
         setCumulativeTotal]. split.
    + apply Qlt_le_weak in Hoff.
      replace 0 with (0 + 0) by reflexivity.
      apply Qplus_le_compat; assumption.
    + rewrite length_app. cbn [List.length].
      pose proof (sliceLast_length 4 (recentAdditions s)). lia.
  - split; [ apply handleUndoLast_nonneg, Hc | ].
    rewrite handleUndoLast_length. lia.
  - split; [ apply Qle_refl | cbn; lia ].
  - unfold tick. destruct (tripTimer s) as [iv |]; [ | split; assumption ].
    destruct (Status_eqb (seenStatus iv) active); split; assumption.
Qed.

Lemma run_additionsOk (b : bool) (events : list Event) :
  additionsOk (run events (mount b)).
Proof.
  apply (run_invariant additionsOk); [ | apply mount_additionsOk ].
  intros e s Hs Hoff. unfold additionsOk.
  rewrite commit_cumulativeTotal, commit_recentAdditions.
  apply handle_additionsOk; assumption.
Qed.

(** *** The trip state *)

Lemma Status_eqb_eq (a b : Status) : Status_eqb a b = true <-> a = b.
Proof. destruct a, b; cbn; split; congruence. Qed.

(** Every handler leaves the time stamps matching the status, from any
    state in which they match. *)
Lemma handle_stampsMatch (e : Event) (s : Screen) :
  stampsMatch (tripState s) -> stampsMatch (tripState (handle e s)).
Proof.
  intros H. destruct e; cbn [handle]; try exact H.
  - unfold startTrip, stampsMatch. fields. cbn [isSet].
    intuition congruence.
  - unfold toggleRest.
    destruct (status (tripState s)) eqn:E; try exact H;
      unfold stampsMatch in *; fields; cbn [isSet]; rewrite E in H;
      intuition congruence.
  - unfold handleDropoffConfirm, stampsMatch. fields. cbn [isSet].
    intuition congruence.
  - unfold resetTrip, stampsMatch. fields. cbn [isSet].
    intuition congruence.
  - unfold cancelOrder, stampsMatch. fields. cbn [isSet].
    intuition congruence.
  - unfold handleUndoLast. destruct (recentAdditions s); exact H.
  - unfold tick. destruct (tripTimer s) as [iv |]; [ | exact H ].
    destruct (Status_eqb (seenStatus iv) active); exact H.
Qed.

Lemma tick_keeps (increment : Q) (s : Screen) :
  tripState (tick increment s) = tripState s
  /\ showDropoffDialog (tick increment s) = showDropoffDialog s
  /\ (tripTimer s = None -> tick increment s = s)
  /\ (forall iv, tripTimer (tick increment s) = Some iv ->
        exists iv', tripTimer s = Some iv' /\ seenStatus iv = seenStatus iv').
Proof.
  unfold tick. destruct (tripTimer s) as [iv |] eqn:E.
  - destruct (Status_eqb (seenStatus iv) active); fields;
      repeat split; try discriminate.
    + intros iv0 H. inversion H; subst. exists iv. split; reflexivity.
    + intros iv0 H. exists iv. rewrite E in H. inversion H.
      split; reflexivity.
  - repeat split. intros iv H. rewrite E in H. discriminate.
Qed.

Lemma mount_tripOk (b : bool) : tripOk (mount b).
Proof.
  unfold tripOk, stampsMatch, inProgress. cbn.
  repeat split; intros; try discriminate; auto.
  destruct H; discriminate.
Qed.

Lemma handle_tripOk (e : Event) (s : Screen) :
  tripOk s -> offered e s = true -> tripOk (handle e s).
Proof.
  intros (Hst & Hdlg & Htm & Hiv) Hoff.
  split; [ apply handle_stampsMatch, Hst | ].
  unfold inProgress in *.
  destruct e; cbn [handle offered] in *.
  - (* PressStart *)
    apply Status_eqb_eq in Hoff. unfold startTrip. fields.
    split; [ intros _; left; reflexivity | ].
    split; [ intros H; exfalso; apply H; left; reflexivity | ].
    intros iv H. inversion H. exact Hoff.
  - (* PressRest *)
    unfold toggleRest.
    destruct (status (tripState s)) eqn:E; fields; rewrite ?E;
      (split; [ | split ]); auto;
      try (intros _; auto); try (intros H; exfalso; apply H; auto).
  - (* PressDropOff *)
    unfold dropOff. fields.
    rewrite orb_true_iff, !Status_eqb_eq in Hoff.
    split; [ intros _; exact Hoff | split; assumption ].
  - (* DialogConfirm *)
    unfold handleDropoffConfirm. fields.
    split; [ discriminate | ]. split; [ reflexivity | discriminate ].
  - (* DialogClose *)
    fields. split; [ discriminate | split; assumption ].
  - (* PressNewTrip *)
    unfold resetTrip. fields. apply Status_eqb_eq in Hoff.
    split; [ | split; [ reflexivity | discriminate ] ].
    intros H. apply Hdlg in H. rewrite Hoff in H.
    destruct H; discriminate.
  - (* ConfirmCancelOrder *)
    unfold cancelOrder. fields.
    rewrite andb_true_iff, orb_true_iff, !Status_eqb_eq in Hoff.
    split; [ | split; [ reflexivity | discriminate ] ].
    intros H. apply Hdlg in H.
    destruct Hoff as [[Hs | Hs] _]; rewrite Hs in H;
      destruct H; discriminate.
  - (* PressPrice *)
    unfold handlePriceAdd. fields. split; [ | split ]; assumption.
  - (* PressUndo *)
    unfold handleUndoLast. destruct (recentAdditions s); fields;
      (split; [ | split ]); assumption.
  - (* ConfirmClear *)
    unfold clearCumulative. fields. split; [ | split ]; assumption.
  - (* OpenDemand *)
    fields. split; [ | split ]; assumption.
  - (* SelectDemand *)
    unfold handleDemandSelect. fields. split; [ | split ]; assumption.
  - (* CloseDemand *)
    fields. split; [ | split ]; assumption.
  - (* Tick *)
    destruct (tick_keeps increment s) as (Ht & Hd & Hnone & Hsome).
    rewrite Ht, Hd. split; [ assumption | split ].
    + intros H. rewrite (Hnone (Htm H)). apply Htm, H.
    + intros iv H. destruct (Hsome iv H) as (iv' & H' & ->).
      apply Hiv, H'.
Qed.

Lemma commit_tripOk (before after : Screen) :
  tripOk after -> tripOk (commit before after).
Proof.
  unfold tripOk.
  destruct (commit_fields before after)
    as (-> & _ & _ & _ & _ & -> & _ & _ & ->).
  auto.
Qed.

Lemma run_tripOk (b : bool) (events : list Event) :
  tripOk (run events (mount b)).
Proof.
  apply (run_invariant tripOk); [ | apply mount_tripOk ].
  intros e s Hs Hoff. apply commit_tripOk, handle_tripOk; assumption.
Qed.

(** The interval of the trip simulation never moves the distance: its
    callback tests the status of the render that started it, which is
    [idle], the only status in which "Start Trip" is rendered. *)
Lemma run_tick_idle (b : bool) (events : list Event) (increment : Q) :
  press (Tick increment) (run events (mount b)) = run events (mount b).
Proof.
  destruct (run_tripOk b events) as (_ & _ & _ & Hiv).
  set (s := run events (mount b)) in *.
  unfold press, fire. destruct (offered (Tick increment) s); [ | reflexivity ].
  assert (Ht : tick increment s = s).
  { unfold tick. destruct (tripTimer s) as [iv |]; [ | reflexivity ].
    rewrite (Hiv iv eq_refl). reflexivity. }
  cbn [handle]. rewrite Ht. unfold commit, depsChanged.
  rewrite !Qeq_bool_refl. reflexivity.
Qed.

End TripFacts.

(* --------------------------------------------------------------------- *)
(** ** Voice-announcement gate *)
(* --------------------------------------------------------------------- *)

Section VoiceFacts.

Import Voice.

Lemma differs_true (t : string) (last : option string) :
  differs t last = true <-> Some t <> last.
Proof.
  unfold differs. destruct last as [l |].
  - rewrite negb_true_iff. split.
    + intros H E. inversion E; subst. rewrite String.eqb_refl in H.
      discriminate.
    + intros H. destruct (String.eqb t l) eqn:E; [ | reflexivity ].
      apply String.eqb_eq in E. subst. congruence.
  - split; [ discriminate | reflexivity ].
Qed.

Lemma shouldSpeak_true (d : Q) (i : NavigationInstruction)
  (last : option string) :
  shouldSpeak d i last = true
  <-> d <= 100 \/ (d <= 500 /\ Some (text i) <> last).
Proof.
  unfold shouldSpeak.
  rewrite orb_true_iff, andb_true_iff, !Qle_bool_iff, differs_true.
  reflexivity.
Qed.

Lemma speakInstruction_records (i : NavigationInstruction) (d : Q)
  (st : State) :
  lastSpokenInstruction (snd (speakInstruction i d st)) = Some (text i)
  /\ isMuted (snd (speakInstruction i d st)) = isMuted st
  /\ isInitialized (snd (speakInstruction i d st)) = isInitialized st.
Proof. repeat split. Qed.

(** The effect, with the voice initialised, navigation on and an
    instruction present. *)
Lemma instructionEffect_on (props : Props) (st : State)
  (i : NavigationInstruction) :
  isInitialized st = true -> isNavigating props = true ->
  currentInstruction props = Some i ->
  instructionEffect props st
  = if negb (isMuted st)
       && shouldSpeak (distanceToNext props) i (lastSpokenInstruction st)
    then (Some (fst (speakInstruction i (distanceToNext props) st)),
          snd (speakInstruction i (distanceToNext props) st))
    else (None, st).
Proof.
  intros Hi Hn Hc. unfold instructionEffect. rewrite Hi, Hn, Hc.
  cbn [negb orb]. destruct (isMuted st); cbn [negb andb]; [ reflexivity | ].
  destruct (shouldSpeak _ _ _); reflexivity.
Qed.

End VoiceFacts.

(* ===================================================================== *)
(** * The claims of the specification *)
(* ===================================================================== *)

Section FareClaims.

Import Trip Sample.

Lemma press_total (b : bool) (events : list Event) (e : Event) :
  let s := run events (mount b) in
  totalFare (press e s) == calculatedTotal (press e s).
Proof.
  cbv zeta.
  change (press e (run events (mount b)))
    with (run [e] (run events (mount b))).
  rewrite <- run_app. apply run_priced, mount_priced.
Qed.


(** An interval started while the trip is active sees that status and moves
    the distance; the total follows: 0.25 km gives 2150. *)
Example total_fare_moving_distance :
  let s := fireAll [PressStart 0; PressStart 3; Tick (15 # 100)] (mount false) in
  distance s == 25 # 100 /\ totalFare s == 2150 /\ fare s == 2150.
Proof. cbv zeta. repeat split; vm_compute; reflexivity. Qed.

(** The [fare] counter is another state than [totalFare]: [resetTrip] sets
    it without the cumulative additions, and the effect does not run again
    when none of its dependencies changed. *)
Remark fare_counter_after_reset :
  let s := run [PressPrice 500; PressStart 0; PressDropOff; DialogConfirm;
                PressNewTrip] (mount false) in
  cumulativeTotal s == 500 /\ totalFare s == 2560 /\ fare s == 2060.
Proof. cbv zeta. repeat split; vm_compute; reflexivity. Qed.

(** The same three totals on IEEE doubles: [0.1 * 600] is exactly [60]. *)
Example total_fare_doubles :
  calculatedTotalDouble initialDistanceDouble 0 0 = 2060%float
  /\ calculatedTotalDouble initialDistanceDouble 1000 0 = 3060%float
  /\ calculatedTotalDouble initialDistanceDouble 1000 500 = 3560%float.
Proof. repeat split; vm_compute; reflexivity. Qed.


Lemma run_ticks_idle (b : bool) (events : list Event) (increments : list Q) :
  run (map Tick increments) (run events (mount b)) = run events (mount b).
Proof.
  induction increments as [| i l IH]; [ reflexivity | ].
  cbn [map]. change (run (Tick i :: map Tick l) (run events (mount b)))
    with (run (map Tick l) (press (Tick i) (run events (mount b)))).
  rewrite run_tick_idle. exact IH.
Qed.



End FareClaims.

Section VoiceClaims.

Import Voice Sample.

(** C3, as stated, fails: instruction A announced at 80 m is announced
    again at 60 m, since every update within 100 m speaks; instruction B at
    450 m is then announced. *)
Lemma same_instruction_spoken_again_within_100 :
  fst (renders [ mkProps (Some turnLeft) 80 true;
                 mkProps (Some turnLeft) 60 true;
                 mkProps (Some turnRight) 450 true ]
         (mkState false None true))
  = [ Some (mkUtterance (Some 80%Z) "Turn left");
      Some (mkUtterance (Some 60%Z) "Turn left");
      Some (mkUtterance (Some 450%Z) "Turn right") ].
Proof. vm_compute. reflexivity. Qed.

(** C3, amended.  With the voice initialised, navigation on and an
    instruction present, the gate speaks exactly when it is not muted and
    either the distance to the next manoeuvre is at most 100 m, or it is
    at most 500 m and the text of the instruction differs from the last
    one spoken.  After speaking, the text is recorded, so that the same
    instruction is not spoken again on an update between 100 m and 500 m;
    on an update within 100 m it is spoken again. *)
Theorem announcement_gate (props : Props) (st : State)
  (i : NavigationInstruction) :
  isInitialized st = true -> isNavigating props = true ->
  currentInstruction props = Some i ->
  let d := distanceToNext props in
  let st' := snd (instructionEffect props st) in
  (fst (instructionEffect props st) <> None
   <-> isMuted st = false
       /\ (d <= 100 \/ (d <= 500 /\ Some (text i) <> lastSpokenInstruction st)))
  /\ (fst (instructionEffect props st) <> None ->
      lastSpokenInstruction st' = Some (text i)
      /\ forall d' j,
           text j = text i ->
           (100 < d' ->
            fst (instructionEffect (mkProps (Some j) d' true) st') = None)
           /\ (d' <= 100 ->
               fst (instructionEffect (mkProps (Some j) d' true) st')
               <> None)).
Proof.
  intros Hi Hn Hc. cbv zeta.
  rewrite (instructionEffect_on props st i Hi Hn Hc).
  destruct (isMuted st) eqn:Hm; cbn [negb andb].
  - cbn [fst snd]. split.
    + split; [ congruence | intros [H _]; discriminate ].
    + congruence.
  - destruct (shouldSpeak (distanceToNext props) i
                (lastSpokenInstruction st)) eqn:Hs; cbn [fst snd].
    + apply shouldSpeak_true in Hs. split.
      * split; [ intros _; split; [ reflexivity | exact Hs ] | discriminate ].
      * intros _. split; [ reflexivity | ].
        intros d' j Hj.
        set (st1 := snd (speakInstruction i (distanceToNext props) st)).
        assert (E : instructionEffect (mkProps (Some j) d' true) st1
                    = if shouldSpeak d' j (Some (text i))
                      then (Some (fst (speakInstruction j d' st1)),
                            snd (speakInstruction j d' st1))
                      else (None, st1)).
        { rewrite (instructionEffect_on (mkProps (Some j) d' true) st1 j);
            try reflexivity; [ | exact Hi ].
          cbn [isMuted st1 snd speakInstruction]. rewrite Hm.
          reflexivity. }
        rewrite E. split.
        -- intros Hd.
           destruct (shouldSpeak d' j (Some (text i))) eqn:Hs';
             [ | reflexivity ].
           apply shouldSpeak_true in Hs'.
           destruct Hs' as [Hle | [_ Hne]].
           ++ apply Qle_not_lt in Hle. contradiction.
           ++ rewrite Hj in Hne. congruence.
        -- intros Hd.
           assert (Hs' : shouldSpeak d' j (Some (text i)) = true)
             by (apply shouldSpeak_true; left; exact Hd).
           rewrite Hs'. discriminate.
    + split; [ | congruence ].
      split; [ congruence | ].
      intros [_ H]. apply shouldSpeak_true in H. congruence.
Qed.

Lemma announcement_gate_witness :
  let props := mkProps (Some turnLeft) 450 true in
  let st := mkState false None true in
  let st' := snd (instructionEffect props st) in
  (fst (instructionEffect props st) <> None
   <-> false = false
       /\ (450 <= 100 \/ (450 <= 500 /\ Some "Turn left"%string <> None)))
  /\ (fst (instructionEffect props st) <> None ->
      lastSpokenInstruction st' = Some "Turn left"%string
      /\ forall d' j,
           text j = "Turn left"%string ->
           (100 < d' ->
            fst (instructionEffect (mkProps (Some j) d' true) st') = None)
           /\ (d' <= 100 ->
               fst (instructionEffect (mkProps (Some j) d' true) st')
               <> None)).
Proof.
  exact (announcement_gate (mkProps (Some turnLeft) 450 true)
           (mkState false None true) turnLeft eq_refl eq_refl eq_refl).
Defined.

End VoiceClaims.

Section TripClaims.

Import Trip.




(** C8, as stated, fails: after a trip that was started and dropped off,
    the status is completed and the start time is not set. *)
Lemma completed_trip_has_no_start_time :
  let started := run [PressStart 1000] (mount false) in
  let s := run [PressDropOff; DialogConfirm] started in
  startTime (tripState started) = Some 1000%Z
  /\ status (tripState s) = completed
  /\ startTime (tripState s) = None.
Proof. cbv zeta. repeat split. Qed.

(** C8, amended.  In every state of the screen, the rest start time is
    set exactly when the status is resting, and the start time is set
    exactly when the status is active or resting: the drop-off
    confirmation clears it, so that a completed trip carries none.  Every
    handler keeps this true, from any state in which it holds. *)
Theorem time_stamps_match_status :
  (forall b events,
      let t := tripState (run events (mount b)) in
      (isSet (restStartTime t) = true <-> status t = resting)
      /\ (isSet (startTime t) = true
          <-> status t = active \/ status t = resting))
  /\ (forall e s,
         stampsMatch (tripState s) -> stampsMatch (tripState (handle e s))).
Proof.
  split.
  - intros b events. cbv zeta. apply (run_tripOk b events).
  - apply handle_stampsMatch.
Qed.

Lemma time_stamps_match_status_witness :
  stampsMatch
    (tripState (handle DialogConfirm (run [PressStart 1000] (mount false)))).
Proof.
  apply (proj2 time_stamps_match_status DialogConfirm
           (run [PressStart 1000] (mount false))).
  apply (proj1 time_stamps_match_status false [PressStart 1000]).
Defined.

End TripClaims.

Section TrackerClaims.

Import Tracker Sample.

(** C5.  For a route with a non-empty list of instructions and any
    position, the tracker makes current the instruction whose anchor is at
    the least distance from the position, and among instructions at that
    least distance the one of lowest index.  (The distances are the
    finite numbers [calculateDistance] returns: none exceeds
    [Number.MAX_VALUE].) *)
Theorem closest_instruction_lowest_index
  (calculateDistance : LocationCoords -> LocationCoords -> Q)
  (route : RouteResult) (location : LocationCoords)
  (current : option NavigationInstruction) :
  instructions route <> [] ->
  (forall x, In x (instructions route) ->
             calculateDistance location (coordinates x) <= MAX_VALUE) ->
  exists k i,
    nth_error (instructions route) k = Some i
    /\ updateNavigationProgress calculateDistance (Some route) location current
       = Some i
    /\ (forall x, In x (instructions route) ->
                  calculateDistance location (coordinates i)
                  <= calculateDistance location (coordinates x))
    /\ (forall j x, (j < k)%nat -> nth_error (instructions route) j = Some x ->
                    calculateDistance location (coordinates i)
                    < calculateDistance location (coordinates x)).
Proof.
  intros Hne Hfin. destruct location as [la lo].
  unfold updateNavigationProgress, closestInstruction. cbn [latitude longitude].
  destruct (fold_visit calculateDistance (mkCoords la lo) (instructions route)
              MAX_VALUE (nth_error (instructions route) 0))
    as [[Hall Heq] | (k & i & Hk & Heq & _ & Hmin & Hlow)].
  - destruct (instructions route) as [| a l] eqn:E; [ congruence | ].
    exists 0%nat, a. rewrite Heq. cbn [snd nth_error].
    repeat split.
    + intros x Hx. apply Qle_trans with MAX_VALUE.
      * apply Hfin. left. reflexivity.
      * apply Hall, Hx.
    + intros j x Hj. inversion Hj.
  - exists k, i. rewrite Heq. cbn [snd]. repeat split; assumption.
Qed.

Lemma closest_instruction_lowest_index_witness :
  exists k i,
    nth_error [turnLeft; turnRight] k = Some i
    /\ updateNavigationProgress taxicab (Some route) between None = Some i
    /\ (forall x, In x [turnLeft; turnRight] ->
                  taxicab between (coordinates i)
                  <= taxicab between (coordinates x))
    /\ (forall j x, (j < k)%nat ->
                    nth_error [turnLeft; turnRight] j = Some x ->
                    taxicab between (coordinates i)
                    < taxicab between (coordinates x)).
Proof.
  apply (closest_instruction_lowest_index taxicab route between None).
  - discriminate.
  - intros x [<- | [<- | []]]; vm_compute; discriminate.
Defined.

(** Two instructions at the same distance: the first is made current. *)
Example equidistant_instructions :
  taxicab between (coordinates turnLeft)
  == taxicab between (coordinates turnRight)
  /\ updateNavigationProgress taxicab (Some route) between None
     = Some turnLeft.
Proof. split; vm_compute; reflexivity. Qed.

End TrackerClaims.

Section PolylineClaims.

Import Polyline Sample.

(** C6, as stated, fails: a string cut inside its second value is decoded
    without failure, into a coordinate made of the groups that are there;
    the whole string decodes to another longitude. *)
Lemma truncated_polyline_is_decoded :
  endsMidCodepoint (codeUnits "_p~iF~ps") = true
  /\ decodePolyline (codeUnits "_p~iF~ps")
     = [mkCoords (3850000 # 100000) (-10528 # 100000)]
  /\ decodePolyline (codeUnits "_p~iF~ps|U")
     = [mkCoords (3850000 # 100000) (-12020000 # 100000)].
Proof. repeat split. Qed.

(** C6, amended.  [decodePolyline] reads the whole string and never
    fails: the loop stops only when no code unit is left, and on a string
    that ends in the middle of a value it returns a non-empty sequence,
    the same as for the string completed by a zero group ("?"): the
    missing code units count as no bits and end the value. *)
Theorem decodePolyline_mid_codepoint (encoded : jsString) :
  endsMidCodepoint encoded = true ->
  decodePolyline encoded <> []
  /\ decodePolyline encoded = decodePolyline (encoded ++ [63%Z])
  /\ (forall fuel, (List.length encoded <= fuel)%nat ->
                   decodeLoop fuel encoded 0 0 = decodePolyline encoded).
Proof.
  intros Hmid. split; [ | split ].
  - apply decodePolyline_nonempty. intros ->. discriminate.
  - unfold decodePolyline. rewrite decodeLoop_pad by exact Hmid.
    apply decodeLoop_fuel; rewrite ?length_app; cbn [List.length]; lia.
  - intros fuel Hf. unfold decodePolyline.
    apply decodeLoop_fuel; [ exact Hf | apply Nat.le_refl ].
Qed.

Lemma decodePolyline_mid_codepoint_witness :
  decodePolyline (codeUnits "_p~iF~ps") <> []
  /\ decodePolyline (codeUnits "_p~iF~ps")
     = decodePolyline (codeUnits "_p~iF~ps" ++ [63%Z])
  /\ (forall fuel, (List.length (codeUnits "_p~iF~ps") <= fuel)%nat ->
                   decodeLoop fuel (codeUnits "_p~iF~ps") 0 0
                   = decodePolyline (codeUnits "_p~iF~ps")).
Proof.
  exact (decodePolyline_mid_codepoint (codeUnits "_p~iF~ps") eq_refl).
Defined.

(** C7.  For every sequence of coordinates of the WGS-84 range, of any
    length, the string the encoder makes of it decodes to a sequence of
    the same length, each coordinate within 1e-5 degrees of the original
    (the result is the sequence rounded to multiples of 1e-5). *)
Theorem polyline_round_trip (cs : list LocationCoords) :
  Forall wgs84 cs ->
  decodePolyline (encodePolyline cs) = map quantize cs
  /\ List.length (decodePolyline (encodePolyline cs)) = List.length cs
  /\ Forall2 within1e5 cs (decodePolyline (encodePolyline cs)).
Proof.
  intros Hall. rewrite (decodePolyline_encodePolyline cs Hall).
  split; [ reflexivity | split; [ apply length_map | ] ].
  clear Hall. induction cs as [| c cs IH]; cbn [map]; constructor.
  - apply quantize_within.
  - exact IH.
Qed.

Lemma polyline_round_trip_witness :
  decodePolyline (encodePolyline points) = map quantize points
  /\ List.length (decodePolyline (encodePolyline points))
     = List.length points
  /\ Forall2 within1e5 points (decodePolyline (encodePolyline points)).
Proof.
  apply (polyline_round_trip points).
  repeat constructor; vm_compute; discriminate.
Defined.

(** The sequences of length 0 and 1, and the documented example. *)
Example polyline_examples :
  decodePolyline (encodePolyline []) = []
  /\ decodePolyline (encodePolyline [mkCoords (385 # 10) (-1202 # 10)])
     = [mkCoords (3850000 # 100000) (-12020000 # 100000)]
  /\ encodePolyline points = codeUnits "_p~iF~ps|U_ulLnnqC_mqNvxq`@"
  /\ decodePolyline (codeUnits "_p~iF~ps|U_ulLnnqC_mqNvxq`@")
     = map quantize points.
Proof. repeat split. Qed.

End PolylineClaims.

Section AdditionClaims.

Import Trip.

(** C9.  A cumulative addition adds to the running total and becomes the
    last entry of the undo history; undo takes the most recent addition
    (only) off the total and off the history; clear empties both.  From
    zero, adding 500, then 1000, then undoing leaves a total of 500, and
    clearing leaves 0 and an empty history. *)
Theorem cumulative_add_undo_clear :
  (forall v s,
      cumulativeTotal (handlePriceAdd v s) = cumulativeTotal s + v
      /\ last (recentAdditions (handlePriceAdd v s)) 0 = v)
  /\ (forall s l a,
         recentAdditions (handleUndoLast (setRecentAdditions (l ++ [a]) s)) = l
         /\ cumulativeTotal (handleUndoLast (setRecentAdditions (l ++ [a]) s))
            = Qmax 0 (cumulativeTotal s - a))
  /\ (forall b events v,
         let s := run events (mount b) in
         cumulativeTotal (handleUndoLast (handlePriceAdd v s))
         == cumulativeTotal s)
  /\ (forall s,
         cumulativeTotal (clearCumulative s) = 0
         /\ recentAdditions (clearCumulative s) = [])
  /\ (forall b,
         let s := run [PressPrice 500; PressPrice 1000; PressUndo] (mount b) in
         cumulativeTotal (mount b) == 0
         /\ cumulativeTotal s == 500 /\ recentAdditions s = [500]
         /\ cumulativeTotal (press ConfirmClear s) == 0
         /\ recentAdditions (press ConfirmClear s) = []).
Proof.
  split; [ | split; [ | split; [ | split ] ] ].
  - intros v s. split; [ reflexivity | ].
    cbn [handlePriceAdd recentAdditions setRecentAdditions].
    apply last_last.
  - intros s l a. unfold handleUndoLast.
    cbn [recentAdditions setRecentAdditions].
    destruct (l ++ [a]) as [| x l'] eqn:E;
      [ destruct l; discriminate | rewrite <- E ].
    cbn [recentAdditions cumulativeTotal setRecentAdditions
         setCumulativeTotal].
    rewrite last_last, removelast_last. split; reflexivity.
  - intros b events v. cbv zeta.
    destruct (run_additionsOk b events) as [Hc _].
    rewrite (proj1 (undo_add v (run events (mount b)))).
    apply Q.max_r. exact Hc.
  - intros s. split; reflexivity.
  - intros b. destruct b; cbv zeta; repeat split; vm_compute; reflexivity.
Qed.

Lemma undo_on_empty_history (s : Screen) :
  recentAdditions s = [] -> press PressUndo s = s.
Proof. intros H. unfold press, fire. cbn [offered]. rewrite H. reflexivity. Qed.

(** As many undos as the history is long at most empty it. *)
Lemma undos_empty_history (n : nat) :
  forall s, (List.length (recentAdditions s) <= n)%nat ->
            recentAdditions (run (repeat PressUndo n) s) = [].
Proof.
  induction n as [| n IH]; intros s Hl.
  - cbn. destruct (recentAdditions s); [ reflexivity | cbn in Hl; lia ].
  - cbn [repeat].
    change (run (PressUndo :: repeat PressUndo n) s)
      with (run (repeat PressUndo n) (press PressUndo s)).
    apply IH. unfold press, fire. cbn [offered].
    destruct (recentAdditions s) as [| a l] eqn:E.
    + rewrite E. cbn. lia.
    + rewrite commit_recentAdditions. cbn [handle].
      rewrite handleUndoLast_length, E. cbn [List.length] in *. lia.
Qed.

(** C10.  The undo history holds the five most recent additions at
    most: after more than five additions the earlier ones are out of it,
    five undos in a row empty it, and a further undo does nothing, so that
    an increment older than the last five can no longer be undone.  An
    undo never takes the cumulative total below zero: the subtraction is
    clamped at 0. *)
Theorem undo_history_bounded :
  (forall b events,
      (List.length (recentAdditions (run events (mount b))) <= 5)%nat
      /\ 0 <= cumulativeTotal (run events (mount b)))
  /\ (forall v vs s,
         recentAdditions (addAll (v :: vs) s)
         = sliceLast 5 (recentAdditions s ++ v :: vs))
  /\ (forall b events,
         let s := run (events ++ repeat PressUndo 5) (mount b) in
         recentAdditions s = [] /\ press PressUndo s = s)
  /\ (forall s l a,
         cumulativeTotal (handleUndoLast (setRecentAdditions (l ++ [a]) s))
         = Qmax 0 (cumulativeTotal s - a)
         /\ 0 <= cumulativeTotal
                   (handleUndoLast (setRecentAdditions (l ++ [a]) s)))
  /\ (forall b,
         let s := run (repeat (PressPrice 500) 6) (mount b) in
         cumulativeTotal s == 3000
         /\ recentAdditions s = [500; 500; 500; 500; 500]
         /\ cumulativeTotal (run (repeat PressUndo 6) s) == 500
         /\ recentAdditions (run (repeat PressUndo 6) s) = []).
Proof.
  split; [ | split; [ | split; [ | split ] ] ].
  - intros b events. destruct (run_additionsOk b events) as [Hc Hl].
    split; assumption.
  - intros v vs s.
    apply (proj2 (addAll_recentAdditions (v :: vs) s)). discriminate.
  - intros b events. cbv zeta. rewrite run_app.
    assert (H : recentAdditions
                  (run (repeat PressUndo 5) (run events (mount b))) = []).
    { apply undos_empty_history. apply (run_additionsOk b events). }
    split; [ exact H | apply undo_on_empty_history, H ].
  - intros s l a.
    assert (E : cumulativeTotal
                  (handleUndoLast (setRecentAdditions (l ++ [a]) s))
                = Qmax 0 (cumulativeTotal s - a)).
    { unfold handleUndoLast. cbn [recentAdditions setRecentAdditions].
      destruct (l ++ [a]) as [| x l'] eqn:El;
        [ destruct l; discriminate | rewrite <- El ].
      cbn [cumulativeTotal setRecentAdditions setCumulativeTotal].
      rewrite last_last. reflexivity. }
    split; [ exact E | rewrite E; apply Q.le_max_l ].
  - intros b. destruct b; cbv zeta; repeat split; vm_compute; reflexivity.
Qed.

End AdditionClaims.

(* ===================================================================== *)
(** * Further properties of the code *)
(* ===================================================================== *)

Section RestProperties.

Import Trip ScreenParts.

(** X1.  Rest-time accounting: from an active trip, a rest begun at [t1]
    and ended at [t2] brings the trip back to active with the same start
    time, no rest start time, and the total rest time grown by
    [t2 - t1]. *)
Theorem rest_then_continue (s : Screen) (t1 t2 : Z) :
  status (tripState s) = active ->
  tripState (press (PressRest t1) s)
  = mkTrip resting (startTime (tripState s)) (Some t1)
      (totalRestTime (tripState s))
  /\ tripState (run [PressRest t1; PressRest t2] s)
     = mkTrip active (startTime (tripState s)) None
         (totalRestTime (tripState s) + (t2 - t1)).
Proof.
  intros Ha.
  assert (H1 : tripState (press (PressRest t1) s)
               = mkTrip resting (startTime (tripState s)) (Some t1)
                   (totalRestTime (tripState s))).
  { unfold press, fire. cbn [offered]. rewrite Ha. cbn [Status_eqb orb].
    rewrite commit_tripState. cbn [handle]. unfold toggleRest.
    rewrite Ha. reflexivity. }
  split; [ exact H1 | ].
  change (run [PressRest t1; PressRest t2] s)
    with (press (PressRest t2) (press (PressRest t1) s)).
  set (s1 := press (PressRest t1) s) in *.
  unfold press, fire. cbn [offered]. rewrite H1.
  cbn [status Status_eqb orb].
  rewrite commit_tripState. cbn [handle]. unfold toggleRest.
  rewrite H1. reflexivity.
Qed.

Lemma rest_then_continue_witness :
  let s := run [PressStart 0] (mount false) in
  tripState (press (PressRest 10000) s)
  = mkTrip resting (Some 0%Z) (Some 10000%Z) 0
  /\ tripState (run [PressRest 10000; PressRest 15000] s)
     = mkTrip active (Some 0%Z) None (0 + (15000 - 10000)).
Proof.
  exact (rest_then_continue (run [PressStart 0] (mount false)) 10000 15000
           eq_refl).
Defined.

(** What a clock at [t] keeps true of the rest times. *)
Lemma rest_times_step (e : Event) (s : Screen) (t : Z) :
  (0 <= totalRestTime (tripState s))%Z ->
  (status (tripState s) = resting ->
   exists r, restStartTime (tripState s) = Some r /\ (r <= t)%Z) ->
  clockFrom t [e] = true ->
  let t' := match eventTime e with Some now => now | None => t end in
  (t <= t')%Z
  /\ (0 <= totalRestTime (tripState (press e s)))%Z
  /\ (status (tripState (press e s)) = resting ->
      exists r, restStartTime (tripState (press e s)) = Some r
                /\ (r <= t')%Z).
Proof.
  intros Htot Hrest Hclock. cbv zeta.
  unfold press, fire. destruct (offered e s) eqn:Hoff.
  - rewrite commit_tripState.
    destruct e; cbn [handle eventTime clockFrom] in *;
      rewrite ?andb_true_r in Hclock; try apply Z.leb_le in Hclock.
    + unfold startTrip. fields. split; [ exact Hclock | ].
      split; [ lia | discriminate ].
    + unfold toggleRest. destruct (status (tripState s)) eqn:E; fields;
        (split; [ exact Hclock | ]).
      * split; [ exact Htot | rewrite E; discriminate ].
      * split; [ exact Htot | ]. intros _. exists now. split; [ reflexivity | lia ].
      * destruct (Hrest eq_refl) as (r & Hr & Hle). rewrite Hr.
        cbn [orZero]. split; [ lia | discriminate ].
      * split; [ exact Htot | rewrite E; discriminate ].
    + unfold dropOff. fields. split; [ lia | split; assumption ].
    + unfold handleDropoffConfirm. fields.
      split; [ lia | split; [ lia | discriminate ] ].
    + fields. split; [ lia | split; assumption ].
    + unfold resetTrip. fields.
      split; [ lia | split; [ lia | discriminate ] ].
    + unfold cancelOrder. fields.
      split; [ lia | split; [ lia | discriminate ] ].
    + unfold handlePriceAdd. fields. split; [ lia | split; assumption ].
    + unfold handleUndoLast. destruct (recentAdditions s); fields;
        (split; [ lia | split; assumption ]).
    + unfold clearCumulative. fields. split; [ lia | split; assumption ].
    + fields. split; [ lia | split; assumption ].
    + unfold handleDemandSelect. fields. split; [ lia | split; assumption ].
    + fields. split; [ lia | split; assumption ].
    + destruct (tick_keeps increment s) as (-> & _).
      split; [ lia | split; assumption ].
  - assert (Hle : (t <= match eventTime e with
                         | Some now => now
                         | None => t
                         end)%Z).
    { destruct e; cbn [eventTime clockFrom] in *;
        rewrite ?andb_true_r in Hclock; try apply Z.leb_le in Hclock; lia. }
    split; [ exact Hle | split; [ exact Htot | ] ].
    intros Hr. destruct (Hrest Hr) as (r & Hr' & Hrt).
    exists r. split; [ exact Hr' | lia ].
Qed.

Lemma rest_times_run (events : list Event) :
  forall s t,
    (0 <= totalRestTime (tripState s))%Z ->
    (status (tripState s) = resting ->
     exists r, restStartTime (tripState s) = Some r /\ (r <= t)%Z) ->
    clockFrom t events = true ->
    (0 <= totalRestTime (tripState (run events s)))%Z.
Proof.
  induction events as [| e events IH]; intros s t Htot Hrest Hclock.
  - exact Htot.
  - change (run (e :: events) s) with (run events (press e s)).
    assert (Hc1 : clockFrom t [e] = true
                  /\ clockFrom (match eventTime e with
                                | Some now => now
                                | None => t
                                end) events = true).
    { cbn [clockFrom] in *. destruct (eventTime e) as [now |].
      - apply andb_true_iff in Hclock. destruct Hclock as [H1 H2].
        rewrite H1. split; [ reflexivity | exact H2 ].
      - split; [ reflexivity | exact Hclock ]. }
    destruct Hc1 as [Hc1 Hc2].
    destruct (rest_times_step e s t Htot Hrest Hc1) as (_ & Htot' & Hrest').
    exact (IH _ _ Htot' Hrest' Hc2).
Qed.

(** X2.  With a clock that never runs backwards, the total rest time of the
    trip is never negative, whatever the events. *)
Theorem rest_time_never_negative (b : bool) (events : list Event) (t : Z) :
  clockFrom t events = true ->
  (0 <= totalRestTime (tripState (run events (mount b))))%Z.
Proof.
  intros Hclock. apply (rest_times_run events (mount b) t).
  - cbn. lia.
  - cbn. discriminate.
  - exact Hclock.
Qed.

Lemma rest_time_never_negative_witness :
  (0 <= totalRestTime
          (tripState
             (run [PressStart 5; PressRest 7; PressPrice 500; PressRest 9;
                   PressRest 12] (mount false))))%Z.
Proof.
  exact (rest_time_never_negative false
           [PressStart 5; PressRest 7; PressPrice 500; PressRest 9;
            PressRest 12] 0 eq_refl).
Defined.

End RestProperties.

Section SimulationProperties.

Import Trip ScreenParts.

Lemma handle_distance_initial (e : Event) (s : Screen) :
  tripOk s -> distance s = INITIAL_DISTANCE ->
  distance (handle e s) = INITIAL_DISTANCE.
Proof.
  intros (_ & _ & _ & Hiv) Hd.
  destruct e; cbn [handle]; try exact Hd; try reflexivity.
  - unfold toggleRest. destruct (status (tripState s)); exact Hd.
  - unfold handleUndoLast. destruct (recentAdditions s); exact Hd.
  - unfold tick. destruct (tripTimer s) as [iv |] eqn:E; [ | exact Hd ].
    rewrite (Hiv iv eq_refl). exact Hd.
Qed.

Lemma run_distance_initial (b : bool) (events : list Event) :
  tripOk (run events (mount b))
  /\ distance (run events (mount b)) = INITIAL_DISTANCE.
Proof.
  apply (run_invariant
           (fun s => tripOk s /\ distance s = INITIAL_DISTANCE)).
  - intros e s [Hok Hd] Hoff. split.
    + apply commit_tripOk, handle_tripOk; assumption.
    + destruct (commit_fields s (handle e s)) as (_ & -> & _).
      apply handle_distance_initial; assumption.
  - split; [ apply mount_tripOk | reflexivity ].
Qed.

(** X3.  Through the controls of the screen the trip simulation never
    moves the distance: the callback of the interval tests the status of
    the render that started it, which is idle, so every firing does
    nothing.  In every state of the screen the distance is the initial
    0.1 km and the total is 2060 plus the demand surcharge and the
    cumulative additions. *)
Theorem simulation_never_moves_distance (b : bool) (events : list Event) :
  let s := run events (mount b) in
  distance s = INITIAL_DISTANCE
  /\ (forall iv, tripTimer s = Some iv -> seenStatus iv = idle)
  /\ (forall increment, press (Tick increment) s = s)
  /\ totalFare s == 2060 + demandValue s + cumulativeTotal s.
Proof.
  cbv zeta. destruct (run_distance_initial b events) as [Hok Hd].
  split; [ exact Hd | split; [ apply Hok | split ] ].
  - intros increment. apply run_tick_idle.
  - pose proof (run_priced events (mount b) (mount_priced b)) as Hp.
    unfold calculatedTotal in Hp. rewrite Hd in Hp.
    generalize dependent (run events (mount b)). intros s _ _ Hp.
    unfold BASE_FARE, INITIAL_DISTANCE, FARE_RATE in Hp. lra.
Qed.

Lemma simulation_never_moves_distance_witness :
  seenStatus (mkInterval idle 0 INITIAL_DISTANCE) = idle.
Proof.
  exact (proj1 (proj2 (simulation_never_moves_distance false
                         [PressStart 0; Tick (1 # 10)]))
           (mkInterval idle 0 INITIAL_DISTANCE) eq_refl).
Defined.

(** X4.  "New Trip" keeps the cumulative additions and their history: the
    new trip is idle with no demand surcharge, and its total starts at 2060
    plus the additions of the trip before.  The fare counter shows that
    total when a demand surcharge was set, and 2060 when none was. *)
Theorem new_trip_keeps_additions (b : bool) (events : list Event) :
  let s := run events (mount b) in
  let s' := press PressNewTrip s in
  status (tripState s) = completed ->
  tripState s' = mkTrip idle None None 0
  /\ demandValue s' = 0
  /\ cumulativeTotal s' = cumulativeTotal s
  /\ recentAdditions s' = recentAdditions s
  /\ totalFare s' == 2060 + cumulativeTotal s
  /\ (demandValue s == 0 -> fare s' == 2060)
  /\ (~ demandValue s == 0 -> fare s' == totalFare s').
Proof.
  cbv zeta. intros Hc.
  destruct (simulation_never_moves_distance b events)
    as (Hd & _ & _ & Ht).
  set (s := run events (mount b)) in *.
  assert (Hp : press PressNewTrip s = commit s (resetTrip s)).
  { unfold press, fire. cbn [offered]. rewrite Hc. reflexivity. }
  rewrite Hp.
  destruct (commit_fields s (resetTrip s))
    as (-> & _ & -> & -> & -> & _).
  split; [ reflexivity | ]. split; [ reflexivity | ].
  split; [ reflexivity | ]. split; [ reflexivity | ].
  unfold commit, depsChanged.
  cbn [resetTrip distance demandValue cumulativeTotal setDemandValue setFare
       setDistance setTripState setTripTimer].
  rewrite Hd, !Qeq_bool_refl, andb_true_r, andb_true_l.
  destruct (Qeq_bool (demandValue s) 0) eqn:E; cbn [negb].
  - apply Qeq_bool_iff in E.
    cbn [resetTrip totalFare fare setDemandValue setFare setDistance
         setTripState setTripTimer].
    split; [ rewrite Ht, E; lra | ].
    split; [ intros _; rewrite E; vm_compute; reflexivity | ].
    intros H. contradiction.
  - assert (Hne : ~ demandValue s == 0).
    { intros H. apply Qeq_bool_iff in H. congruence. }
    unfold fareEffect, calculatedTotal.
    cbn [resetTrip totalFare fare distance demandValue cumulativeTotal
         setTotalFare setDemandValue setFare setDistance setTripState
         setTripTimer].
    split; [ unfold BASE_FARE, INITIAL_DISTANCE, FARE_RATE; lra | ].
    split; [ intros H; contradiction | intros _; reflexivity ].
Qed.

Lemma new_trip_keeps_additions_witness :
  let s := run [PressPrice 500; PressStart 0; PressDropOff; DialogConfirm]
             (mount false) in
  let s' := press PressNewTrip s in
  tripState s' = mkTrip idle None None 0
  /\ demandValue s' = 0
  /\ cumulativeTotal s' = cumulativeTotal s
  /\ recentAdditions s' = recentAdditions s
  /\ totalFare s' == 2060 + cumulativeTotal s
  /\ (demandValue s == 0 -> fare s' == 2060)
  /\ (~ demandValue s == 0 -> fare s' == totalFare s').
Proof.
  exact (new_trip_keeps_additions false
           [PressPrice 500; PressStart 0; PressDropOff; DialogConfirm]
           eq_refl).
Defined.

End SimulationProperties.

Section HistoryProperties.

Import Trip ScreenParts.

Lemma total_app (l1 l2 : list Q) : total (l1 ++ l2) == total l1 + total l2.
Proof.
  unfold total. induction l1 as [| a l1 IH]; cbn [app fold_right].
  - lra.
  - rewrite IH. lra.
Qed.

Lemma total_nonneg (l : list Q) :
  Forall (fun v => 0 <= v) l -> 0 <= total l.
Proof.
  unfold total. induction 1 as [| a l Ha _ IH]; cbn [fold_right]; lra.
Qed.

Lemma Forall_skipn_Q (P : Q -> Prop) (n : nat) (l : list Q) :
  Forall P l -> Forall P (firstn n l) /\ Forall P (skipn n l).
Proof.
  intros H. rewrite <- (firstn_skipn n l) in H.
  apply Forall_app in H. exact H.
Qed.

Lemma Forall_removelast_Q (P : Q -> Prop) (l : list Q) :
  Forall P l -> Forall P (removelast l).
Proof.
  intros H. destruct l as [| a l]; [ constructor | ].
  assert (Hne : a :: l <> []) by discriminate.
  rewrite (app_removelast_last 0 Hne) in H.
  apply Forall_app in H. apply H.
Qed.

Lemma total_skipn (n : nat) (l : list Q) :
  Forall (fun v => 0 <= v) l -> total (skipn n l) <= total l.
Proof.
  intros H. rewrite <- (firstn_skipn n l) at 2. rewrite total_app.
  pose proof (total_nonneg _ (proj1 (Forall_skipn_Q _ n l H))). lra.
Qed.

Lemma options_nonneg (l : list Q) :
  Forall (fun v => Q_in v PRICE_OPTIONS = true) l ->
  Forall (fun v => 0 <= v) l.
Proof.
  intros H. eapply Forall_impl; [ | exact H ].
  intros v Hv. apply Qlt_le_weak, price_option_positive, Hv.
Qed.

Lemma handle_historyOk (e : Event) (s : Screen) :
  historyOk s -> offered e s = true -> historyOk (handle e s).
Proof.
  intros [Hopt Hsum] Hoff. unfold historyOk.
  destruct e; cbn [handle]; try (split; assumption).
  - unfold toggleRest. destruct (status (tripState s)); split; assumption.
  - cbn [offered] in Hoff.
    cbn [handlePriceAdd cumulativeTotal recentAdditions setRecentAdditions
         setCumulativeTotal]. split.
    + apply Forall_app. split.
      * apply (Forall_skipn_Q _ _ _ Hopt).
      * constructor; [ exact Hoff | constructor ].
    + rewrite total_app. unfold sliceLast.
      pose proof (total_skipn (List.length (recentAdditions s) - 4)
                    (recentAdditions s) (options_nonneg _ Hopt)).
      unfold total at 2. cbn [fold_right]. lra.
  - unfold handleUndoLast.
    destruct (recentAdditions s) as [| a l] eqn:E; [ rewrite E; split; assumption | ].
    rewrite <- E in *.
    cbn [cumulativeTotal recentAdditions setRecentAdditions
         setCumulativeTotal]. split.
    + apply Forall_removelast_Q, Hopt.
    + assert (Hne : recentAdditions s <> []) by (rewrite E; discriminate).
      pose proof (app_removelast_last 0 Hne) as Hl.
      rewrite Hl in Hsum at 1. rewrite total_app in Hsum.
      unfold total at 2 in Hsum. cbn [fold_right] in Hsum.
      apply Qle_trans with (cumulativeTotal s - last (recentAdditions s) 0);
        [ lra | apply Q.le_max_r ].
  - cbn [clearCumulative cumulativeTotal recentAdditions setRecentAdditions
         setCumulativeTotal]. split; [ constructor | apply Qle_refl ].
  - unfold tick. destruct (tripTimer s) as [iv |]; [ | split; assumption ].
    destruct (Status_eqb (seenStatus iv) active); split; assumption.
Qed.

Lemma run_historyOk (b : bool) (events : list Event) :
  historyOk (run events (mount b)).
Proof.
  apply (run_invariant historyOk).
  - intros e s Hs Hoff. unfold historyOk.
    rewrite commit_cumulativeTotal, commit_recentAdditions.
    apply handle_historyOk; assumption.
  - split; [ constructor | apply Qle_refl ].
Qed.

(** X5.  In every state of the screen the undo history holds price options
    only, and their sum does not exceed the cumulative total; so the clamp
    of the undo never acts: an undo takes exactly the last addition off the
    total. *)
Theorem undo_is_exact (b : bool) (events : list Event) :
  let s := run events (mount b) in
  Forall (fun v => Q_in v PRICE_OPTIONS = true) (recentAdditions s)
  /\ total (recentAdditions s) <= cumulativeTotal s
  /\ (forall l a,
         recentAdditions s = l ++ [a] ->
         recentAdditions (press PressUndo s) = l
         /\ cumulativeTotal (press PressUndo s) == cumulativeTotal s - a).
Proof.
  cbv zeta. destruct (run_historyOk b events) as [Hopt Hsum].
  set (s := run events (mount b)) in *.
  split; [ exact Hopt | split; [ exact Hsum | ] ].
  intros l a Hl.
  assert (Hp : press PressUndo s = commit s (handleUndoLast s)).
  { unfold press, fire. cbn [offered]. rewrite Hl.
    destruct l; reflexivity. }
  assert (Hge : 0 <= cumulativeTotal s - a).
  { rewrite Hl in Hopt, Hsum. rewrite total_app in Hsum.
    apply Forall_app in Hopt.
    pose proof (total_nonneg _ (options_nonneg _ (proj1 Hopt))).
    unfold total at 2 in Hsum. cbn [fold_right] in Hsum. lra. }
  rewrite Hp, commit_cumulativeTotal, commit_recentAdditions.
  unfold handleUndoLast. rewrite Hl.
  destruct (l ++ [a]) as [| x l'] eqn:E; [ destruct l; discriminate | ].
  rewrite <- E.
  cbn [cumulativeTotal recentAdditions setRecentAdditions setCumulativeTotal].
  rewrite last_last, removelast_last. split; [ reflexivity | ].
  apply Q.max_r. exact Hge.
Qed.

Lemma undo_is_exact_witness :
  recentAdditions
    (press PressUndo (run [PressPrice 2000; PressPrice 500] (mount false)))
  = [2000]
  /\ cumulativeTotal
       (press PressUndo (run [PressPrice 2000; PressPrice 500] (mount false)))
     == cumulativeTotal (run [PressPrice 2000; PressPrice 500] (mount false))
        - 500.
Proof.
  exact (proj2 (proj2 (undo_is_exact false [PressPrice 2000; PressPrice 500]))
           [2000] 500 eq_refl).
Defined.

(** X6.  The stars of the customer rating: the filled ones come first, and
    their number is the integer part of the rating, not below zero and not
    above five. *)
Theorem stars_filled (rating : Q) :
  let n := Z.to_nat (Z.max 0 (Z.min 5 (Qfloor rating))) in
  renderStars rating = repeat true n ++ repeat false (5 - n).
Proof.
  cbv zeta. unfold renderStars. cbn [map].
  destruct (Z.ltb_spec 0 (Qfloor rating)); [ | replace (Z.max 0 (Z.min 5 (Qfloor rating))) with 0%Z by lia;
    repeat (match goal with |- context [(?a <? ?b)%Z] =>
              destruct (Z.ltb_spec a b); [ lia | ] end); reflexivity ].
  destruct (Z.ltb_spec 1 (Qfloor rating)); [ | replace (Z.max 0 (Z.min 5 (Qfloor rating))) with 1%Z by lia;
    repeat (match goal with |- context [(?a <? ?b)%Z] =>
              destruct (Z.ltb_spec a b); [ lia | ] end); reflexivity ].
  destruct (Z.ltb_spec 2 (Qfloor rating)); [ | replace (Z.max 0 (Z.min 5 (Qfloor rating))) with 2%Z by lia;
    repeat (match goal with |- context [(?a <? ?b)%Z] =>
              destruct (Z.ltb_spec a b); [ lia | ] end); reflexivity ].
  destruct (Z.ltb_spec 3 (Qfloor rating)); [ | replace (Z.max 0 (Z.min 5 (Qfloor rating))) with 3%Z by lia;
    repeat (match goal with |- context [(?a <? ?b)%Z] =>
              destruct (Z.ltb_spec a b); [ lia | ] end); reflexivity ].
  destruct (Z.ltb_spec 4 (Qfloor rating)); [ | replace (Z.max 0 (Z.min 5 (Qfloor rating))) with 4%Z by lia;
    reflexivity ].
  replace (Z.max 0 (Z.min 5 (Qfloor rating))) with 5%Z by lia. reflexivity.
Qed.

End HistoryProperties.

Section CancelProperties.

Import Trip ScreenParts.

Lemma handle_cancel_hidden (e : Event) (s : Screen) :
  showCancelButton s = false -> showCancelButton (handle e s) = false.
Proof.
  intros H. destruct e; cbn [handle]; try exact H; try reflexivity.
  - unfold toggleRest. destruct (status (tripState s)); exact H.
  - unfold handleUndoLast. destruct (recentAdditions s); exact H.
  - unfold tick. destruct (tripTimer s) as [iv |]; [ | exact H ].
    destruct (Status_eqb (seenStatus iv) active); exact H.
Qed.

Lemma run_cancel_hidden (events : list Event) (s : Screen) :
  showCancelButton s = false -> showCancelButton (run events s) = false.
Proof.
  apply (run_invariant (fun s => showCancelButton s = false)).
  intros e s' Hs' _.
  destruct (commit_fields s' (handle e s'))
    as (_ & _ & _ & _ & _ & _ & _ & -> & _).
  apply handle_cancel_hidden, Hs'.
Qed.

(** X7.  A confirmed "Cancel Order" makes the trip idle without a demand
    surcharge, keeps the cumulative additions, so that the total is 2060
    plus these, while the fare counter shows 2060 when no surcharge was set;
    and it hides the cancel button for good: whatever follows, the order
    cannot be cancelled a second time. *)
Theorem cancel_order_once (b : bool) (events events' : list Event) :
  let s := run events (mount b) in
  let s' := press ConfirmCancelOrder s in
  offered ConfirmCancelOrder s = true ->
  tripState s' = mkTrip idle None None 0
  /\ demandValue s' = 0
  /\ cumulativeTotal s' = cumulativeTotal s
  /\ recentAdditions s' = recentAdditions s
  /\ totalFare s' == 2060 + cumulativeTotal s
  /\ (demandValue s == 0 -> fare s' == 2060)
  /\ offered ConfirmCancelOrder (run events' s') = false.
Proof.
  cbv zeta. intros Hoff.
  destruct (simulation_never_moves_distance b events)
    as (Hd & _ & _ & Ht).
  set (s := run events (mount b)) in *.
  assert (Hp : press ConfirmCancelOrder s = commit s (cancelOrder s)).
  { unfold press, fire. rewrite Hoff. reflexivity. }
  assert (Hhid : showCancelButton (press ConfirmCancelOrder s) = false).
  { rewrite Hp.
    destruct (commit_fields s (cancelOrder s))
      as (_ & _ & _ & _ & _ & _ & _ & -> & _). reflexivity. }
  assert (Hlast : offered ConfirmCancelOrder
                    (run events' (press ConfirmCancelOrder s)) = false).
  { cbn [offered]. rewrite (run_cancel_hidden events' _ Hhid).
    apply andb_false_r. }
  revert Hlast. rewrite Hp. intros Hlast.
  destruct (commit_fields s (cancelOrder s))
    as (-> & _ & -> & -> & -> & _).
  split; [ reflexivity | ]. split; [ reflexivity | ].
  split; [ reflexivity | ]. split; [ reflexivity | ].
  unfold commit, depsChanged.
  cbn [cancelOrder distance demandValue cumulativeTotal setShowCancelButton
       setDemandValue setFare setDistance setTripState setTripTimer].
  rewrite Hd, !Qeq_bool_refl, andb_true_r, andb_true_l.
  unfold commit, depsChanged in Hlast.
  cbn [cancelOrder distance demandValue cumulativeTotal setShowCancelButton
       setDemandValue setFare setDistance setTripState setTripTimer] in Hlast.
  rewrite Hd, !Qeq_bool_refl, andb_true_r, andb_true_l in Hlast.
  destruct (Qeq_bool (demandValue s) 0) eqn:E; cbn [negb] in *.
  - apply Qeq_bool_iff in E.
    cbn [cancelOrder totalFare fare setShowCancelButton setDemandValue setFare
         setDistance setTripState setTripTimer].
    split; [ rewrite Ht, E; lra | ].
    split; [ intros _; vm_compute; reflexivity | exact Hlast ].
  - unfold fareEffect, calculatedTotal.
    cbn [cancelOrder totalFare fare distance demandValue cumulativeTotal
         setTotalFare setShowCancelButton setDemandValue setFare setDistance
         setTripState setTripTimer].
    split; [ unfold BASE_FARE, INITIAL_DISTANCE, FARE_RATE; lra | ].
    split; [ | exact Hlast ].
    intros H. apply Qeq_bool_iff in H. congruence.
Qed.

Lemma cancel_order_once_witness :
  let s := run [PressPrice 1000] (mount true) in
  let s' := press ConfirmCancelOrder s in
  tripState s' = mkTrip idle None None 0
  /\ demandValue s' = 0
  /\ cumulativeTotal s' = cumulativeTotal s
  /\ recentAdditions s' = recentAdditions s
  /\ totalFare s' == 2060 + cumulativeTotal s
  /\ (demandValue s == 0 -> fare s' == 2060)
  /\ offered ConfirmCancelOrder (run [PressStart 3; PressDropOff; DialogConfirm] s')
     = false.
Proof.
  exact (cancel_order_once true [PressPrice 1000]
           [PressStart 3; PressDropOff; DialogConfirm] eq_refl).
Defined.

End CancelProperties.

Section SpeechProperties.

Import Voice.

Lemma round_near (x : Q) :
  inject_Z (round x) - (1 # 2) <= x /\ x < inject_Z (round x) + (1 # 2).
Proof.
  unfold round.
  pose proof (Qfloor_le (x + (1 # 2))) as Hlo.
  pose proof (Qlt_floor (x + (1 # 2))) as Hhi.
  rewrite inject_Z_plus in Hhi. change (inject_Z 1) with 1 in Hhi.
  split; lra.
Qed.

Lemma round_mono (x y : Q) : x <= y -> (round x <= round y)%Z.
Proof. intros H. unfold round. apply Qfloor_resp_le. lra. Qed.

(** X8.  What [speakInstruction] says of the distance: nothing up to 50 m;
    between 50 m and 100 m the distance to the nearest metre; beyond 100 m
    a multiple of 50 m, at least 100 and at most 25 m off the distance.
    The text spoken is the text of the instruction, which is recorded as
    the last one spoken. *)
Theorem spoken_distance (i : NavigationInstruction) (d : Q) (st : State) :
  let u := fst (speakInstruction i d st) in
  spoken u = text i
  /\ lastSpokenInstruction (snd (speakInstruction i d st)) = Some (text i)
  /\ (d <= 50 -> inMeters u = None)
  /\ (50 < d -> d <= 100 ->
      exists n, inMeters u = Some n
                /\ (50 <= n <= 100)%Z
                /\ Qabs (inject_Z n - d) <= 1 # 2)
  /\ (100 < d ->
      exists k, inMeters u = Some (k * 50)%Z
                /\ (2 <= k)%Z
                /\ Qabs (inject_Z (k * 50) - d) <= 25).
Proof.
  cbv zeta. unfold speakInstruction. cbn [fst snd lastSpokenInstruction].
  split; [ destruct (Qle_bool d 50); [ | destruct (Qle_bool d 100) ];
           reflexivity | ].
  split; [ reflexivity | ].
  split; [ | split ].
  - intros H. apply Qle_bool_iff in H. rewrite H. reflexivity.
  - intros H50 H100.
    assert (E50 : Qle_bool d 50 = false).
    { destruct (Qle_bool d 50) eqn:E; [ | reflexivity ].
      apply Qle_bool_iff in E. lra. }
    apply Qle_bool_iff in H100 as E100. rewrite E50, E100.
    cbn [inMeters]. exists (round d).
    destruct (round_near d) as [Hlo Hhi].
    split; [ reflexivity | split ].
    + split.
      * change 50%Z with (round 50). apply round_mono. lra.
      * change 100%Z with (round 100). apply round_mono. exact H100.
    + apply Qabs_Qle_condition. split; lra.
  - intros H100.
    assert (E50 : Qle_bool d 50 = false).
    { destruct (Qle_bool d 50) eqn:E; [ | reflexivity ].
      apply Qle_bool_iff in E. lra. }
    assert (E100 : Qle_bool d 100 = false).
    { destruct (Qle_bool d 100) eqn:E; [ | reflexivity ].
      apply Qle_bool_iff in E. lra. }
    rewrite E50, E100. cbn [inMeters]. exists (round (d / 50)).
    destruct (round_near (d / 50)) as [Hlo Hhi].
    assert (Hd : d / 50 * 50 == d) by (field).
    split; [ reflexivity | split ].
    + change 2%Z with (round 2). apply round_mono.
      apply Qle_shift_div_l; [ reflexivity | lra ].
    + rewrite inject_Z_mult. change (inject_Z 50) with 50.
      apply Qabs_Qle_condition. split; lra.
Qed.

Lemma spoken_distance_witness :
  exists k, inMeters (fst (speakInstruction Sample.turnLeft 130
                            (mkState false None true)))
            = Some (k * 50)%Z
            /\ (2 <= k)%Z
            /\ Qabs (inject_Z (k * 50) - 130) <= 25.
Proof.
  apply (proj2 (proj2 (proj2 (proj2
           (spoken_distance Sample.turnLeft 130 (mkState false None true)))))).
  reflexivity.
Defined.

End SpeechProperties.

Section MuteProperties.

Import Voice VoiceParts.

Lemma instructionEffect_muted (props : Props) (st : State) :
  isMuted st = true -> instructionEffect props st = (None, st).
Proof.
  intros H. unfold instructionEffect. rewrite H.
  rewrite !orb_true_r. reflexivity.
Qed.

Lemma instructionEffect_far (t : string) (props : Props) (st : State) :
  farWith t props -> lastSpokenInstruction st = Some t ->
  instructionEffect props st = (None, st).
Proof.
  intros [Hd Ht] Hl. unfold instructionEffect.
  destruct (negb (isInitialized st) || negb (isNavigating props) || isMuted st);
    [ reflexivity | ].
  destruct (currentInstruction props) as [i |]; [ | reflexivity ].
  destruct (shouldSpeak (distanceToNext props) i (lastSpokenInstruction st))
    eqn:E; [ | reflexivity ].
  apply shouldSpeak_true in E. destruct E as [H | [_ H]].
  - apply Qle_not_lt in H. contradiction.
  - rewrite Hl, (Ht i eq_refl) in H. congruence.
Qed.

Lemma renders_silent (updates : list Props) (st : State) :
  Forall (fun props => instructionEffect props st = (None, st)) updates ->
  renders updates st = (map (fun _ => None) updates, st).
Proof.
  induction 1 as [| props updates Hp _ IH]; cbn [renders map].
  - reflexivity.
  - rewrite Hp, IH. reflexivity.
Qed.

(** X9.  While the voice is muted no sequence of updates speaks or changes
    the state; unmuting speaks the current instruction at once, at any
    distance, and records it; muting and unmuting again gives the mute flag
    back. *)
Theorem muted_is_silent (updates : list Props) (props : Props) (st : State)
  (i : NavigationInstruction) :
  isMuted st = true -> currentInstruction props = Some i ->
  renders updates st = (map (fun _ => None) updates, st)
  /\ toggleMute props st
     = (Some (fst (speakInstruction i (distanceToNext props) st)),
        mkState false (Some (text i)) (isInitialized st))
  /\ toggleMute props (snd (toggleMute props st))
     = (None, mkState true (Some (text i)) (isInitialized st)).
Proof.
  intros Hm Hc. split; [ | split ].
  - apply renders_silent. apply Forall_forall. intros p _.
    apply instructionEffect_muted, Hm.
  - unfold toggleMute. rewrite Hm, Hc. reflexivity.
  - unfold toggleMute at 2. rewrite Hm, Hc. cbn [negb snd speakInstruction].
    unfold toggleMute. reflexivity.
Qed.

Lemma muted_is_silent_witness :
  renders [mkProps (Some Sample.turnLeft) 80 true;
           mkProps (Some Sample.turnRight) 40 true]
    (mkState true None true)
  = ([None; None], mkState true None true)
  /\ toggleMute (mkProps (Some Sample.turnLeft) 900 true)
       (mkState true None true)
     = (Some (fst (speakInstruction Sample.turnLeft 900
                     (mkState true None true))),
        mkState false (Some "Turn left"%string) true)
  /\ toggleMute (mkProps (Some Sample.turnLeft) 900 true)
       (snd (toggleMute (mkProps (Some Sample.turnLeft) 900 true)
               (mkState true None true)))
     = (None, mkState true (Some "Turn left"%string) true).
Proof.
  exact (muted_is_silent
           [mkProps (Some Sample.turnLeft) 80 true;
            mkProps (Some Sample.turnRight) 40 true]
           (mkProps (Some Sample.turnLeft) 900 true)
           (mkState true None true) Sample.turnLeft eq_refl eq_refl).
Defined.

(** X10.  An instruction is announced at most once while the manoeuvre is
    farther than 100 m: once its text is the last one spoken, no sequence
    of updates farther than 100 m with that text speaks or changes the
    state; and an update between 100 m and 500 m with a text that was not
    the last spoken speaks once, the updates after it being silent. *)
Theorem announced_once_beyond_100 (t : string) (updates : list Props)
  (st : State) :
  Forall (farWith t) updates ->
  (lastSpokenInstruction st = Some t ->
   renders updates st = (map (fun _ => None) updates, st))
  /\ (forall i d,
         text i = t -> d <= 500 -> 100 < d ->
         isInitialized st = true -> isMuted st = false ->
         lastSpokenInstruction st <> Some t ->
         fst (renders (mkProps (Some i) d true :: updates) st)
         = Some (fst (speakInstruction i d st))
             :: map (fun _ => None) updates).
Proof.
  intros Hfar. split.
  - intros Hl. apply renders_silent.
    eapply Forall_impl; [ | exact Hfar ].
    intros p Hp. apply (instructionEffect_far t); assumption.
  - intros i d Ht Hd500 Hd100 Hi Hm Hne.
    cbn [renders].
    rewrite (instructionEffect_on (mkProps (Some i) d true) st i Hi
               eq_refl eq_refl).
    rewrite Hm. cbn [negb andb distanceToNext].
    assert (Hs : shouldSpeak d i (lastSpokenInstruction st) = true).
    { apply shouldSpeak_true. right. split; [ exact Hd500 | ].
      rewrite Ht. congruence. }
    rewrite Hs.
    set (st1 := snd (speakInstruction i d st)).
    assert (Hr : renders updates st1 = (map (fun _ => None) updates, st1)).
    { apply renders_silent.
      eapply Forall_impl; [ | exact Hfar ].
      intros p Hp. apply (instructionEffect_far t); [ exact Hp | ].
      cbn. rewrite Ht. reflexivity. }
    rewrite Hr. reflexivity.
Qed.

Lemma announced_once_beyond_100_witness :
  fst (renders [mkProps (Some Sample.turnLeft) 450 true;
                mkProps (Some Sample.turnLeft) 300 true;
                mkProps (Some Sample.turnLeft) 120 true]
         (mkState false None true))
  = [Some (fst (speakInstruction Sample.turnLeft 450
                  (mkState false None true))); None; None].
Proof.
  assert (Hfar : Forall (farWith "Turn left")
                   [mkProps (Some Sample.turnLeft) 300 true;
                    mkProps (Some Sample.turnLeft) 120 true]).
  { constructor; [ | constructor; [ | constructor ] ];
      (split; [ reflexivity | ]); intros i H; inversion H; reflexivity. }
  apply (proj2 (announced_once_beyond_100 "Turn left" _
                  (mkState false None true) Hfar)
           Sample.turnLeft 450 eq_refl).
  - discriminate.
  - reflexivity.
  - reflexivity.
  - reflexivity.
  - discriminate.
Defined.

End MuteProperties.

Section TrackerProperties.

Import Tracker.

(** X11.  The tracker makes current an instruction of the route, whatever
    the distances; it leaves no instruction current exactly when the route
    has none; without a route it leaves the current instruction as it
    is. *)
Theorem tracker_selects_from_route
  (calculateDistance : LocationCoords -> LocationCoords -> Q)
  (route : RouteResult) (location : LocationCoords)
  (current : option NavigationInstruction) :
  (updateNavigationProgress calculateDistance (Some route) location current
   = None <-> instructions route = [])
  /\ (forall i,
         updateNavigationProgress calculateDistance (Some route) location
           current = Some i ->
         In i (instructions route))
  /\ updateNavigationProgress calculateDistance None location current
     = current.
Proof.
  unfold updateNavigationProgress, closestInstruction.
  set (c := mkCoords (latitude location) (longitude location)).
  destruct (fold_visit calculateDistance c (instructions route) MAX_VALUE
              (nth_error (instructions route) 0))
    as [[_ Heq] | (k & j & Hk & Heq & _)]; rewrite Heq; cbn [snd].
  - split; [ | split; [ | reflexivity ] ].
    + destruct (instructions route); cbn; split; congruence.
    + intros i Hi. apply nth_error_In with 0%nat. exact Hi.
  - split; [ | split; [ | reflexivity ] ].
    + split; [ discriminate | ].
      intros E. rewrite E in Hk. destruct k; discriminate.
    + intros i Hi. inversion Hi; subst. apply nth_error_In with k. exact Hk.
Qed.

Lemma tracker_selects_from_route_witness :
  In Sample.turnLeft (instructions Sample.route).
Proof.
  exact (proj1 (proj2 (tracker_selects_from_route Sample.taxicab Sample.route
                         Sample.between None))
           Sample.turnLeft eq_refl).
Defined.

End TrackerProperties.

Section DecodingProperties.

Import Polyline.

Lemma decodeLoop_length (fuel : nat) :
  forall rest lat lng,
    (2 * List.length (decodeLoop fuel rest lat lng)
     <= List.length rest + 1)%nat.
Proof.
  induction fuel as [| fuel IH]; intros rest lat lng.
  - cbn. lia.
  - destruct rest as [| c rest]; [ cbn; lia | ].
    rewrite decodeLoop_round by discriminate.
    pose proof (readGroups_length_cons c rest 0 0) as L1.
    destruct (readGroups (c :: rest) 0 0) as [result rest1].
    cbn [snd] in L1.
    destruct rest1 as [| c1 rest1].
    + cbn [readGroups]. destruct fuel; cbn; lia.
    + pose proof (readGroups_length_cons c1 rest1 0 0) as L2.
      destruct (readGroups (c1 :: rest1) 0 0) as [result2 rest2].
      cbn [snd] in L2. cbn [List.length] in *.
      specialize (IH rest2 (lat + delta result)%Z (lng + delta result2)%Z).
      lia.
Qed.

(** X12.  [decodePolyline] returns at least one coordinate for a non-empty
    string and at most one for every two code units (rounded up): it never
    makes up more points than the string can hold. *)
Theorem decodePolyline_length (encoded : jsString) :
  (2 * List.length (decodePolyline encoded) <= List.length encoded + 1)%nat
  /\ (decodePolyline encoded = [] <-> encoded = []).
Proof.
  split; [ apply decodeLoop_length | ].
  split.
  - intros H. destruct encoded as [| c rest]; [ reflexivity | ].
    exfalso. apply (decodePolyline_nonempty (c :: rest)); [ discriminate | ].
    exact H.
  - intros ->. reflexivity.
Qed.

End DecodingProperties.

Section CutProperties.

Import Polyline PolylineParts.
Local Open Scope Z_scope.

Lemma decodeLoop_nil (fuel : nat) (lat lng : Z) :
  decodeLoop fuel [] lat lng = [].
Proof. destruct fuel; reflexivity. Qed.

Lemma endE5_range (cs : list LocationCoords) :
  forall lat lng,
    Forall wgs84 cs ->
    - 9000000 <= lat <= 9000000 -> - 18000000 <= lng <= 18000000 ->
    - 9000000 <= fst (endE5 lat lng cs) <= 9000000
    /\ - 18000000 <= snd (endE5 lat lng cs) <= 18000000.
Proof.
  induction cs as [| c cs IH]; intros lat lng Hall Hlat Hlng; cbn [endE5].
  - split; assumption.
  - inversion Hall as [| c' cs' [Hclat Hclng] Hall']; subst.
    apply IH; [ assumption | apply e5_lat_range | apply e5_lng_range ];
      assumption.
Qed.

Lemma encodeFrom_snoc (cs : list LocationCoords) (c : LocationCoords) :
  forall lat lng,
    encodeFrom lat lng (cs ++ [c])
    = encodeFrom lat lng cs
        ++ encodeFrom (fst (endE5 lat lng cs)) (snd (endE5 lat lng cs)) [c].
Proof.
  induction cs as [| a cs IH]; intros lat lng.
  - reflexivity.
  - change ((a :: cs) ++ [c]) with (a :: (cs ++ [c])).
    cbn [encodeFrom endE5]. rewrite IH. cbn [encodeFrom].
    rewrite <- !app_assoc. reflexivity.
Qed.

(** Decoding goes point by point: after the encoding of [cs] it goes on
    with what follows, from the last point of [cs]. *)
Lemma decodeLoop_encodeFrom_app (cs : list LocationCoords) :
  forall fuel lat lng tail,
    Forall wgs84 cs ->
    - 9000000 <= lat <= 9000000 -> - 18000000 <= lng <= 18000000 ->
    (List.length (encodeFrom lat lng cs ++ tail) <= fuel)%nat ->
    decodeLoop fuel (encodeFrom lat lng cs ++ tail) lat lng
    = map quantize cs
        ++ decodeLoop (List.length tail) tail
             (fst (endE5 lat lng cs)) (snd (endE5 lat lng cs)).
Proof.
  induction cs as [| c cs IH]; intros fuel lat lng tail Hall Hlat Hlng Hfuel.
  - cbn [encodeFrom app map endE5 fst snd] in *.
    apply decodeLoop_fuel; [ exact Hfuel | apply Nat.le_refl ].
  - inversion Hall as [| c' cs' [Hclat Hclng] Hall']; subst.
    apply e5_lat_range in Hclat. apply e5_lng_range in Hclng.
    cbn [encodeFrom map endE5] in *.
    destruct (encodeValue_cons (e5 (latitude c) - lat)) as (u & l & Hu).
    rewrite <- !app_assoc in *.
    destruct fuel as [| fuel];
      [ rewrite Hu in Hfuel; cbn in Hfuel; lia | ].
    rewrite decodeLoop_round by (rewrite Hu; discriminate).
    rewrite readGroups_encodeValue by lia.
    rewrite readGroups_encodeValue by lia.
    rewrite !delta_zigzag by lia.
    replace (lat + (e5 (latitude c) - lat)) with (e5 (latitude c)) by lia.
    replace (lng + (e5 (longitude c) - lng)) with (e5 (longitude c)) by lia.
    cbn [app]. unfold quantize at 1. f_equal.
    apply IH; try assumption.
    rewrite Hu in Hfuel. rewrite !length_app in Hfuel.
    rewrite length_app. cbn [List.length] in Hfuel. lia.
Qed.

Lemma encodeGroups_prefix_continues (fuel : nat) :
  forall v p q,
    encodeGroups fuel v = p ++ q -> q <> [] ->
    Forall (fun c => continues c = true) p.
Proof.
  induction fuel as [| fuel IH]; intros v p q E Hq; cbn [encodeGroups] in E.
  - destruct p as [| c p]; [ constructor | ].
    inversion E. destruct p; [ | discriminate ].
    cbn in *. congruence.
  - destruct (32 <=? v).
    + destruct p as [| c p]; [ constructor | ].
      rewrite <- app_comm_cons in E.
      assert (Ecp : Z.lor 32 (Z.land v 31) + 63 = c
                    /\ encodeGroups fuel (Z.shiftr v 5) = p ++ q)
        by (split; congruence).
      clear E. destruct Ecp as [Ec Ep].
      constructor.
      * rewrite <- Ec. unfold continues.
        rewrite Z.add_simpl_r, group_byte.
        apply Z.leb_le.
        pose proof (Z.mod_pos_bound v 32 ltac:(lia)). lia.
      * apply (IH (Z.shiftr v 5) p q); assumption.
    + destruct p as [| c p]; [ constructor | ].
      inversion E. destruct p; [ | discriminate ].
      cbn in *. congruence.
Qed.

Lemma readGroups_continues (p : jsString) :
  Forall (fun c => continues c = true) p ->
  forall shift result, snd (readGroups p shift result) = [].
Proof.
  induction 1 as [| c p Hc _ IH]; intros shift result; cbn [readGroups].
  - reflexivity.
  - unfold continues in Hc. rewrite Hc. apply IH.
Qed.

(** A cut inside the two values of a point leaves one coordinate. *)
Lemma decodeLoop_cut_point (dlat dlng lat lng : Z) (p q : jsString) :
  - 2 ^ 30 <= dlat < 2 ^ 30 ->
  p ++ q = encodeValue dlat ++ encodeValue dlng ->
  p <> [] -> q <> [] ->
  exists x, decodeLoop (List.length p) p lat lng = [x].
Proof.
  intros Hdlat E Hp Hq.
  destruct p as [| c p']; [ congruence | ].
  cbn [List.length]. rewrite decodeLoop_round by discriminate.
  apply app_eq_app in E. destruct E as (l & [[E1 E2] | [E1 E2]]).
  - (* the latitude is whole *)
    rewrite E1, readGroups_encodeValue by exact Hdlat.
    assert (Hl : Forall (fun c => continues c = true) l).
    { apply (encodeGroups_prefix_continues _ _ l q E2 Hq). }
    pose proof (readGroups_continues l Hl 0 0) as Hr.
    destruct (readGroups l 0 0) as [result2 rest2]. cbn [snd] in Hr.
    subst rest2. rewrite decodeLoop_nil. eauto.
  - destruct l as [| u l].
    + (* the cut is right after the latitude *)
      rewrite app_nil_r in E1. rewrite <- E1.
      rewrite <- (app_nil_r (encodeValue dlat)).
      rewrite readGroups_encodeValue by exact Hdlat.
      cbn [readGroups]. rewrite decodeLoop_nil. eauto.
    + (* the cut is inside the latitude *)
      assert (Hl : Forall (fun c => continues c = true) (c :: p')).
      { apply (encodeGroups_prefix_continues _ _ (c :: p') (u :: l) E1).
        discriminate. }
      pose proof (readGroups_continues (c :: p') Hl 0 0) as Hr.
      destruct (readGroups (c :: p') 0 0) as [result rest1]. cbn [snd] in Hr.
      subst rest1. cbn [readGroups]. rewrite decodeLoop_nil. eauto.
Qed.

(** X13.  A well-formed encoded path cut inside its last point decodes to
    all the points before it, rounded as the encoder rounds them, followed
    by exactly one more coordinate, made of what is left of the last
    point. *)
Theorem cut_polyline_keeps_whole_points (cs : list LocationCoords)
  (c : LocationCoords) (p q : jsString) :
  Forall wgs84 cs -> wgs84 c ->
  encodePolyline (cs ++ [c]) = (encodePolyline cs ++ p) ++ q ->
  p <> [] -> q <> [] ->
  exists x, decodePolyline (encodePolyline cs ++ p) = map quantize cs ++ [x].
Proof.
  intros Hall [Hclat Hclng] E Hp Hq.
  unfold encodePolyline in *.
  rewrite encodeFrom_snoc, <- app_assoc in E. apply app_inv_head in E.
  cbn [encodeFrom] in E. rewrite app_nil_r in E.
  destruct (endE5_range cs 0 0 Hall ltac:(lia) ltac:(lia)) as [Hla Hlo].
  apply e5_lat_range in Hclat.
  unfold decodePolyline.
  rewrite (decodeLoop_encodeFrom_app cs _ 0 0 p Hall ltac:(lia) ltac:(lia)
             (Nat.le_refl _)).
  destruct (decodeLoop_cut_point
              (e5 (latitude c) - fst (endE5 0 0 cs))
              (e5 (longitude c) - snd (endE5 0 0 cs))
              (fst (endE5 0 0 cs)) (snd (endE5 0 0 cs)) p q
              ltac:(lia) (eq_sym E) Hp Hq) as [x Hx].
  exists x. rewrite Hx. reflexivity.
Qed.

Lemma cut_polyline_keeps_whole_points_witness :
  exists x,
    decodePolyline
      (encodePolyline
         [mkCoords (385 # 10) (-1202 # 10); mkCoords (407 # 10) (-12095 # 100)]
       ++ codeUnits "_mqNvx")
    = map quantize
        [mkCoords (385 # 10) (-1202 # 10); mkCoords (407 # 10) (-12095 # 100)]
      ++ [x].
Proof.
  apply (cut_polyline_keeps_whole_points
           [mkCoords (385 # 10) (-1202 # 10);
            mkCoords (407 # 10) (-12095 # 100)]
           (mkCoords (43252 # 1000) (-126453 # 1000))
           (codeUnits "_mqNvx") (codeUnits "q`@")).
  - repeat constructor; vm_compute; discriminate.
  - split; split; vm_compute; discriminate.
  - reflexivity.
  - discriminate.
  - discriminate.
Defined.

End CutProperties.

Section TrafficProperties.

Import Traffic.

(** A threshold on the percentage, in integers. *)
Lemma percentage_above (k delay n : Z) :
  (0 < n)%Z ->
  Qltb (inject_Z k) (inject_Z delay / inject_Z n * 100)
  = (k * n <? 100 * delay)%Z.
Proof.
  intros Hn.
  assert (Hq : 0 < inject_Z n).
  { change 0 with (inject_Z 0). rewrite <- Zlt_Qlt. exact Hn. }
  assert (Hnz : ~ inject_Z n == 0) by (intros H; rewrite H in Hq; discriminate).
  assert (E : inject_Z delay / inject_Z n * 100
              == inject_Z (100 * delay) / inject_Z n).
  { rewrite inject_Z_mult. change (inject_Z 100) with 100. field. exact Hnz. }
  destruct (Z.ltb_spec (k * n) (100 * delay)) as [H | H].
  - apply Qltb_lt. rewrite E. apply Qlt_shift_div_l; [ exact Hq | ].
    rewrite <- inject_Z_mult, <- Zlt_Qlt. exact H.
  - apply Qltb_ge. rewrite E. apply Qle_shift_div_r; [ exact Hq | ].
    rewrite <- inject_Z_mult, <- Zle_Qle. exact H.
Qed.

(** X14.  The traffic severity in whole seconds, for a positive normal
    duration: severe when the delay is more than half of it, high when more
    than a quarter, medium when more than a tenth, low otherwise; a delay
    of zero or less is always low. *)
Theorem traffic_severity_thresholds (delay normalDuration : Z) :
  (0 < normalDuration)%Z ->
  calculateTrafficSeverity delay normalDuration
  = (if (normalDuration <? 2 * delay)%Z then severe
     else if (normalDuration <? 4 * delay)%Z then high
     else if (normalDuration <? 10 * delay)%Z then medium
     else low)
  /\ ((delay <= 0)%Z -> calculateTrafficSeverity delay normalDuration = low).
Proof.
  intros Hn.
  assert (E : calculateTrafficSeverity delay normalDuration
              = (if (normalDuration <? 2 * delay)%Z then severe
                 else if (normalDuration <? 4 * delay)%Z then high
                 else if (normalDuration <? 10 * delay)%Z then medium
                 else low)).
  { unfold calculateTrafficSeverity.
    replace (normalDuration =? 0)%Z with false
      by (symmetry; apply Z.eqb_neq; lia).
    change 50 with (inject_Z 50). change 25 with (inject_Z 25).
    change 10 with (inject_Z 10).
    rewrite !percentage_above by exact Hn.
    replace (50 * normalDuration <? 100 * delay)%Z
      with (normalDuration <? 2 * delay)%Z
      by (destruct (Z.ltb_spec normalDuration (2 * delay));
          destruct (Z.ltb_spec (50 * normalDuration) (100 * delay));
          try reflexivity; lia).
    replace (25 * normalDuration <? 100 * delay)%Z
      with (normalDuration <? 4 * delay)%Z
      by (destruct (Z.ltb_spec normalDuration (4 * delay));
          destruct (Z.ltb_spec (25 * normalDuration) (100 * delay));
          try reflexivity; lia).
    replace (10 * normalDuration <? 100 * delay)%Z
      with (normalDuration <? 10 * delay)%Z
      by (destruct (Z.ltb_spec normalDuration (10 * delay));
          destruct (Z.ltb_spec (10 * normalDuration) (100 * delay));
          try reflexivity; lia).
    reflexivity. }
  split; [ exact E | ].
  intros Hd. rewrite E.
  destruct (Z.ltb_spec normalDuration (2 * delay)); [ lia | ].
  destruct (Z.ltb_spec normalDuration (4 * delay)); [ lia | ].
  destruct (Z.ltb_spec normalDuration (10 * delay)); [ lia | ].
  reflexivity.
Qed.

Lemma traffic_severity_thresholds_witness :
  calculateTrafficSeverity 400 1200
  = (if (1200 <? 2 * 400)%Z then severe
     else if (1200 <? 4 * 400)%Z then high
     else if (1200 <? 10 * 400)%Z then medium
     else low)
  /\ ((400 <= 0)%Z -> calculateTrafficSeverity 400 1200 = low).
Proof.
  exact (traffic_severity_thresholds 400 1200 eq_refl).
Defined.

(** X15.  The traffic information of a route: a delay of a minute or less
    reads "No delay", also when it more than doubles the duration and the
    severity is severe; a longer delay reads a whole number of minutes, at
    least one, within half a minute of the delay. *)
Theorem traffic_delay_text (normalDuration trafficDuration : Z) :
  let delay := (trafficDuration - normalDuration)%Z in
  ((delay <= 60)%Z ->
   snd (trafficInfo normalDuration trafficDuration) = NoDelay)
  /\ ((0 <= normalDuration)%Z -> (normalDuration < 2 * delay)%Z ->
      (delay <= 60)%Z ->
      trafficInfo normalDuration trafficDuration = (severe, NoDelay))
  /\ ((60 < delay)%Z ->
      exists m, snd (trafficInfo normalDuration trafficDuration) = MinDelay m
                /\ (1 <= m)%Z /\ (- 30 <= 60 * m - delay <= 30)%Z).
Proof.
  cbv zeta. unfold trafficInfo, delayText. cbn [snd].
  set (delay := (trafficDuration - normalDuration)%Z).
  split; [ | split ].
  - intros H. destruct (Z.ltb_spec 60 delay); [ lia | reflexivity ].
  - intros Hn Hd H60.
    destruct (Z.ltb_spec 60 delay); [ lia | ]. f_equal.
    destruct (Z.eq_dec normalDuration 0) as [-> | Hnz].
    + unfold calculateTrafficSeverity. cbn [Z.eqb].
      destruct (Z.ltb_spec 0 delay); [ reflexivity | lia ].
    + rewrite (proj1 (traffic_severity_thresholds delay normalDuration
                        ltac:(lia))).
      destruct (Z.ltb_spec normalDuration (2 * delay)); [ reflexivity | lia ].
  - intros H. destruct (Z.ltb_spec 60 delay); [ | lia ].
    exists (Qfloor (inject_Z delay / 60 + (1 # 2))).
    split; [ reflexivity | ].
    pose proof (Qfloor_le (inject_Z delay / 60 + (1 # 2))) as Hlo.
    pose proof (Qlt_floor (inject_Z delay / 60 + (1 # 2))) as Hhi.
    set (m := Qfloor (inject_Z delay / 60 + (1 # 2))) in *.
    rewrite inject_Z_plus in Hhi. change (inject_Z 1) with 1 in Hhi.
    assert (Hdiv : inject_Z delay / 60 * 60 == inject_Z delay) by field.
    assert (Hlo' : inject_Z (60 * m - 30) <= inject_Z delay).
    { unfold Z.sub. rewrite inject_Z_plus, inject_Z_mult.
      change (inject_Z 60) with 60. change (inject_Z (- (30))) with (-30).
      lra. }
    assert (Hhi' : inject_Z delay < inject_Z (60 * m + 30)).
    { rewrite inject_Z_plus, inject_Z_mult.
      change (inject_Z 60) with 60. change (inject_Z 30) with 30. lra. }
    rewrite <- Zle_Qle in Hlo'. rewrite <- Zlt_Qlt in Hhi'. lia.
Qed.

Lemma traffic_delay_text_witness :
  trafficInfo 60 120 = (severe, NoDelay).
Proof.
  exact (proj1 (proj2 (traffic_delay_text 60 120))
           ltac:(discriminate) eq_refl ltac:(discriminate)).
Defined.

End TrafficProperties.

Section HtmlProperties.

Import Polyline Html.
Local Open Scope Z_scope.

Lemma existsb_gt_brackets (s : jsString) :
  existsb (Z.eqb gt) (brackets s) = existsb (Z.eqb gt) s.
Proof.
  unfold brackets. induction s as [| c s IH]; [ reflexivity | ].
  cbn [filter existsb].
  destruct (c =? lt) eqn:El; destruct (c =? gt) eqn:Eg; cbn [orb existsb];
    rewrite ?IH, (Z.eqb_sym gt c), ?Eg; reflexivity.
Qed.

(** Whether a string has a tag depends on its angle brackets only. *)
Lemma hasTag_brackets (s : jsString) : hasTag (brackets s) = hasTag s.
Proof.
  induction s as [| c s IH]; [ reflexivity | ].
  cbn [hasTag]. unfold brackets in *. cbn [filter].
  destruct (c =? lt) eqn:El; destruct (c =? gt) eqn:Eg; cbn [orb hasTag];
    rewrite ?El, ?IH; fold (brackets s);
    rewrite ?existsb_gt_brackets; reflexivity.
Qed.

Lemma hasTag_app (a b : jsString) :
  hasTag (a ++ b) = false -> hasTag a = false /\ hasTag b = false.
Proof.
  induction a as [| c a IH]; cbn [app hasTag].
  - intros H. split; [ reflexivity | exact H ].
  - rewrite existsb_app. intros H.
    apply orb_false_iff in H. destruct H as [H1 H2].
    destruct (IH H2) as [Ha Hb]. rewrite Ha. split; [ | exact Hb ].
    destruct (c =? lt); [ | reflexivity ].
    cbn [andb] in *. apply orb_false_iff in H1. rewrite (proj1 H1).
    reflexivity.
Qed.

Lemma stripTags_gt (s : jsString) :
  forall inTag,
    existsb (Z.eqb gt) (stripTags inTag s) = true ->
    existsb (Z.eqb gt) s = true.
Proof.
  induction s as [| c s IH]; intros inTag; cbn [stripTags existsb].
  - discriminate.
  - destruct inTag.
    + intros H. rewrite (IH _ H). apply orb_true_r.
    + destruct ((c =? lt) && existsb (Z.eqb gt) s).
      * intros H. rewrite (IH _ H). apply orb_true_r.
      * cbn [existsb]. intros H. apply orb_true_iff in H.
        destruct H as [H | H]; [ rewrite H; reflexivity | ].
        rewrite (IH _ H). apply orb_true_r.
Qed.

Lemma stripTags_noTag (s : jsString) :
  forall inTag, hasTag (stripTags inTag s) = false.
Proof.
  induction s as [| c s IH]; intros inTag; cbn [stripTags].
  - reflexivity.
  - destruct inTag; [ apply IH | ].
    destruct ((c =? lt) && existsb (Z.eqb gt) s) eqn:E; [ apply IH | ].
    cbn [hasTag]. rewrite IH, orb_false_r.
    destruct (c =? lt); [ | reflexivity ]. cbn [andb] in *.
    destruct (existsb (Z.eqb gt) (stripTags false s)) eqn:G; [ | reflexivity ].
    apply stripTags_gt in G. congruence.
Qed.

Lemma brackets_app (a b : jsString) :
  brackets (a ++ b) = brackets a ++ brackets b.
Proof. apply filter_app. Qed.

Lemma brackets_none (s : jsString) :
  Forall noBracket s -> brackets s = [].
Proof.
  unfold brackets. induction 1 as [| c s Hc _ IH]; [ reflexivity | ].
  cbn [filter]. unfold noBracket in Hc. rewrite Hc. exact IH.
Qed.

Lemma startsWith_firstn (pattern : jsString) :
  forall s, startsWith pattern s = true ->
            firstn (List.length pattern) s = pattern.
Proof.
  induction pattern as [| p pattern IH]; intros s H; [ reflexivity | ].
  destruct s as [| c s]; [ discriminate | ].
  cbn [startsWith] in H. apply andb_true_iff in H. destruct H as [H1 H2].
  apply Z.eqb_eq in H1. subst c. cbn [List.length firstn].
  rewrite (IH s H2). reflexivity.
Qed.

(** Replacing a pattern without angle brackets by a replacement without
    angle brackets leaves the angle brackets of the string as they are. *)
Lemma replaceFrom_brackets (pattern replacement : jsString) :
  Forall noBracket pattern -> Forall noBracket replacement ->
  forall s skip,
    Forall noBracket (firstn skip s) ->
    brackets (replaceFrom skip pattern replacement s) = brackets s.
Proof.
  intros Hp Hr. induction s as [| c s IH]; intros skip Hskip.
  - reflexivity.
  - cbn [replaceFrom]. destruct skip as [| skip].
    + destruct pattern as [| p pattern'] eqn:Epat.
      * change (c :: replaceFrom 0 [] replacement s)
          with ([c] ++ replaceFrom 0 [] replacement s).
        change (c :: s) with ([c] ++ s).
        rewrite !brackets_app, (IH 0%nat); [ reflexivity | constructor ].
      * destruct (startsWith (p :: pattern') (c :: s)) eqn:E.
        -- rewrite brackets_app, (brackets_none _ Hr). cbn [app].
           pose proof (startsWith_firstn _ _ E) as Hf.
           cbn [List.length firstn] in Hf.
           injection Hf as Hc Hf.
           rewrite (IH (List.length pattern')).
           ++ change (c :: s) with ([c] ++ s). rewrite brackets_app.
              rewrite (brackets_none [c]); [ reflexivity | ].
              constructor; [ | constructor ].
              subst c. inversion Hp. assumption.
           ++ rewrite Hf. inversion Hp. assumption.
        -- change (c :: replaceFrom 0 (p :: pattern') replacement s)
             with ([c] ++ replaceFrom 0 (p :: pattern') replacement s).
           change (c :: s) with ([c] ++ s).
           rewrite !brackets_app, (IH 0%nat); [ reflexivity | constructor ].
    + cbn [firstn] in Hskip. inversion Hskip as [| c' l Hc Hrest]; subst.
      rewrite (IH skip Hrest).
      change (c :: s) with ([c] ++ s). rewrite brackets_app.
      rewrite (brackets_none [c]); [ reflexivity | ].
      constructor; [ exact Hc | constructor ].
Qed.

Lemma replaceAll_noTag (pattern replacement s : jsString) :
  Forall noBracket pattern -> Forall noBracket replacement ->
  hasTag s = false -> hasTag (replaceAll pattern replacement s) = false.
Proof.
  intros Hp Hr H. unfold replaceAll.
  rewrite <- hasTag_brackets, (replaceFrom_brackets _ _ Hp Hr);
    [ rewrite hasTag_brackets; exact H | constructor ].
Qed.

Lemma trimStart_suffix (s : jsString) :
  exists d, s = d ++ trimStart s.
Proof.
  induction s as [| c s [d IH]]; [ exists []; reflexivity | ].
  cbn [trimStart]. destruct (isSpace c).
  - exists (c :: d). cbn [app]. rewrite <- IH. reflexivity.
  - exists []. reflexivity.
Qed.

Lemma trimStart_head (s : jsString) :
  match trimStart s with
  | [] => True
  | c :: _ => isSpace c = false
  end.
Proof.
  induction s as [| c s IH]; [ exact I | ].
  cbn [trimStart]. destruct (isSpace c) eqn:E; [ exact IH | exact E ].
Qed.

Lemma trim_noTag (s : jsString) : hasTag s = false -> hasTag (trim s) = false.
Proof.
  intros H. unfold trim.
  destruct (trimStart_suffix s) as [d Hd].
  rewrite Hd in H. apply hasTag_app in H. destruct H as [_ H].
  destruct (trimStart_suffix (rev (trimStart s))) as [d' Hd'].
  assert (E : trimStart s
              = rev (trimStart (rev (trimStart s))) ++ rev d').
  { rewrite <- rev_app_distr, <- Hd', rev_involutive. reflexivity. }
  rewrite E in H. apply hasTag_app in H. apply H.
Qed.

(** X16.  The instruction text [cleanHtmlInstructions] returns holds no
    tag: no "<" in it has a ">" after it.  It has no white space at either
    end. *)
Theorem cleaned_instruction_has_no_tag (html : jsString) :
  hasTag (cleanHtmlInstructions html) = false
  /\ match cleanHtmlInstructions html with
     | [] => True
     | c :: _ => isSpace c = false
     end
  /\ match rev (cleanHtmlInstructions html) with
     | [] => True
     | c :: _ => isSpace c = false
     end.
Proof.
  unfold cleanHtmlInstructions.
  set (t := replaceAll (codeUnits "&amp;") (codeUnits "&")
              (replaceAll (codeUnits "&nbsp;") (codeUnits " ")
                 (stripTags false html))).
  split; [ | split ].
  - apply trim_noTag. subst t.
    apply replaceAll_noTag;
      [ repeat constructor | repeat constructor | ].
    apply replaceAll_noTag;
      [ repeat constructor | repeat constructor | ].
    apply stripTags_noTag.
  - unfold trim.
    destruct (trimStart_suffix (rev (trimStart t))) as [d' Hd'].
    assert (E : trimStart t
                = rev (trimStart (rev (trimStart t))) ++ rev d').
    { rewrite <- rev_app_distr, <- Hd', rev_involutive. reflexivity. }
    pose proof (trimStart_head t) as Hh.
    destruct (rev (trimStart (rev (trimStart t)))) as [| c l];
      [ exact I | ].
    rewrite E in Hh. exact Hh.
  - unfold trim. rewrite rev_involutive. apply trimStart_head.
Qed.

(** A text with two tags, an entity of each kind and spaces around. *)
Example cleaned_instruction_sample :
  cleanHtmlInstructions
    (codeUnits "  Turn <b>left</b> onto&nbsp;<b>Pyay Rd</b> &amp; go ")
  = codeUnits "Turn left onto Pyay Rd & go".
Proof. reflexivity. Qed.

End HtmlProperties.
